(** * A shallow embedding of the rpc2 core (abczh/myrpc)

    The development follows the Go sources:
    - [Colfer]: the colfer header codec ([Header.MarshalTo], [MarshalLen],
      [MarshalBinary], [Unmarshal], [UnmarshalBinary]);
    - [Client]: [Client.Call] and its five fail modes (client/client.go);
    - [Server]: registry, context pool, request reading and response
      writing (server/server.go, server/server_context.go).

    The models come first; the proofs follow in [ColferProofs],
    [ClientProofs] and [ServerProofs].

    Go integers are modelled as [Z] with the wrap-around written out,
    byte slices as [list byte], Go strings as [string], maps as [gmap]. *)

From Stdlib Require Import ZArith Lia Bool List.
From Stdlib Require Import Strings.Byte Strings.Ascii Strings.String.
From stdpp Require Import base option list strings pretty gmap.

Local Open Scope Z_scope.

(** ** Go primitives *)

Module Go.

(** Go error values.  [io.EOF] and [io.ErrUnexpectedEOF] are compared by
    identity in the sources; every other error counts through its
    message.  The nil error is [None]. *)
Inductive err :=
  | io_EOF
  | io_ErrUnexpectedEOF
  | Err (msg : string).

Definition error := option err.

(** [err.Error()]. *)
Definition Error_string (e : err) : string :=
  match e with
  | io_EOF => "EOF"
  | io_ErrUnexpectedEOF => "unexpected EOF"
  | Err msg => msg
  end.

(** [len(s)] of a slice, as a Go [int]. *)
Definition len {A} (l : list A) : Z := Z.of_nat (length l).

(** [len(s)] of a string: its number of bytes. *)
Definition strlen (s : string) : Z := Z.of_nat (String.length s).

(** [[]byte(s)] and [string(b)]. *)
Definition bytes_of_string (s : string) : list byte := list_byte_of_string s.
Definition string_of_bytes (b : list byte) : string := string_of_list_byte b.

(** [uint64(b)], [int(b)] for a byte [b]. *)
Definition Z_of_byte (b : byte) : Z := Z.of_N (Byte.to_N b).

(** [byte(x)]: the conversion keeps the low eight bits. *)
Definition byte_of_Z (x : Z) : byte :=
  match Byte.of_N (Z.to_N (x mod 256)) with
  | Some b => b
  | None => x00
  end.

(** Wrap-around of the fixed-width unsigned types. *)
Definition wrap64 (x : Z) : Z := x mod 2 ^ 64.
Definition wrap32 (x : Z) : Z := x mod 2 ^ 32.

Definition is_uint64 (x : Z) : Prop := 0 <= x < 2 ^ 64.

(** [s[i]] with the bounds check of Go; [None] is the run-time panic. *)
Definition index {A} (l : list A) (i : Z) : option A :=
  if (0 <=? i) && (i <? len l) then l !! Z.to_nat i else None.

(** [s[i] = v]; [None] is the index-out-of-range panic. *)
Definition store {A} (l : list A) (i : Z) (v : A) : option (list A) :=
  if (0 <=? i) && (i <? len l) then Some (<[Z.to_nat i := v]> l) else None.

(** [copy(dst[i:], src)]: copies [min(len(dst)-i, len(src))] elements;
    slicing [dst[i:]] panics when [i] is out of [0..len(dst)]. *)
Definition copy_at {A} (dst : list A) (i : Z) (src : list A) : option (list A) :=
  if (0 <=? i) && (i <=? len dst) then
    let n := Z.to_nat i in
    let room := (length dst - n)%nat in
    Some (take n dst ++ take room src ++ drop (n + length src) dst)
  else None.

(** Outcome of a call that may panic. *)
Inductive outcome (A : Type) :=
  | Returns (a : A)
  | Panics.
Arguments Returns {A} a.
Arguments Panics {A}.

End Go.

(** ** The colfer header codec (src/unnamed/part_002) *)

Module Colfer.
Import Go.

(** [ColferSizeMax] is the upper limit for serial byte sizes. *)
Definition ColferSizeMax : Z := 16 * 1024 * 1024.

(** The error values the package returns: [io.EOF], [ColferMax],
    [ColferError(i)] and [ColferTail(i)]. *)
Inductive error :=
  | EOF
  | ColferMax
  | ColferError (i : Z)
  | ColferTail (i : Z).

Record Header := mkHeader {
  SeqID : Z;        (* uint64 *)
  Method : string;
  Error : string
}.

Definition zeroHeader : Header := mkHeader 0 "" "".

Definition set_SeqID (o : Header) (x : Z) := mkHeader x (Method o) (Error o).
Definition set_Method (o : Header) (s : string) := mkHeader (SeqID o) s (Error o).
Definition set_Error (o : Header) (s : string) := mkHeader (SeqID o) (Method o) s.

(** *** Marshalling *)

(** The loop [for x >= 0x80 { buf[i] = byte(x | 0x80); x >>= 7; i++ }].
    A 64-bit [x] is below [0x80] after at most nine shifts, so the bound
    of ten rounds is never what ends the loop
    (lemma [ColferProofs.varint_rounds_suffice]). *)
Fixpoint put_varint_loop (rounds : nat) (buf : list byte) (i x : Z)
  : option (list byte * Z * Z) :=
  match rounds with
  | O => Some (buf, i, x)
  | S rounds' =>
      if 0x80 <=? x then
        buf' ← store buf i (byte_of_Z (Z.lor x 0x80));
        put_varint_loop rounds' buf' (i + 1) (Z.shiftr x 7)
      else Some (buf, i, x)
  end.

Definition varint_rounds : nat := 10.

(** The varint loop followed by [buf[i] = byte(x); i++]. *)
Definition put_varint (buf : list byte) (i x : Z) : option (list byte * Z) :=
  '(buf, i, x) ← put_varint_loop varint_rounds buf i x;
  buf ← store buf i (byte_of_Z x);
  Some (buf, i + 1).

(** A length-prefixed string field with header byte [tag]
    (lines 64-77 and 79-92 of the source). *)
Definition put_text (tag : Z) (s : string) (buf : list byte) (i : Z)
  : option (list byte * Z) :=
  let l := strlen s in
  if l =? 0 then Some (buf, i)
  else
    buf ← store buf i (byte_of_Z tag);
    let i := i + 1 in
    '(buf, i) ← put_varint buf i l;
    buf ← copy_at buf i (bytes_of_string s);
    Some (buf, i + l).

(** The [SeqID] field (lines 47-62). *)
Definition put_seq (x : Z) (buf : list byte) (i : Z) : option (list byte * Z) :=
  if 2 ^ 49 <=? x then
    buf ← store buf i (byte_of_Z (Z.lor 0 0x80));
    buf ← store buf (i + 1) (byte_of_Z (Z.shiftr x 56));
    buf ← store buf (i + 2) (byte_of_Z (Z.shiftr x 48));
    buf ← store buf (i + 3) (byte_of_Z (Z.shiftr x 40));
    buf ← store buf (i + 4) (byte_of_Z (Z.shiftr x 32));
    buf ← store buf (i + 5) (byte_of_Z (Z.shiftr x 24));
    buf ← store buf (i + 6) (byte_of_Z (Z.shiftr x 16));
    buf ← store buf (i + 7) (byte_of_Z (Z.shiftr x 8));
    buf ← store buf (i + 8) (byte_of_Z x);
    Some (buf, i + 9)
  else if negb (x =? 0) then
    buf ← store buf i (byte_of_Z 0);
    put_varint buf (i + 1) x
  else Some (buf, i).

(** [MarshalTo] encodes [o] into [buf] and returns the buffer with the
    number of bytes written; [None] is the panic on a buffer that is too
    small. *)
Definition MarshalTo (o : Header) (buf : list byte) : option (list byte * Z) :=
  '(buf, i) ← put_seq (SeqID o) buf 0;
  '(buf, i) ← put_text 1 (Method o) buf i;
  '(buf, i) ← put_text 2 (Error o) buf i;
  buf ← store buf i (byte_of_Z 0x7f);
  Some (buf, i + 1).

(** The loop [for x >= 0x80 { x >>= 7; l++ }] of [MarshalLen]. *)
Fixpoint len_varint_loop (rounds : nat) (x l : Z) : Z :=
  match rounds with
  | O => l
  | S rounds' =>
      if 0x80 <=? x then len_varint_loop rounds' (Z.shiftr x 7) (l + 1) else l
  end.

Definition len_text (s : string) (l : Z) : Z :=
  let x := strlen s in
  if x =? 0 then l
  else len_varint_loop varint_rounds x (l + x) + 2.

Definition len_seq (x : Z) (l : Z) : Z :=
  if 2 ^ 49 <=? x then l + 9
  else if negb (x =? 0) then len_varint_loop varint_rounds x (l + 2)
  else l.

(** [MarshalLen] returns the serial byte size, with [ColferMax] when it
    exceeds [ColferSizeMax]. *)
Definition MarshalLen (o : Header) : Z * option error :=
  let l := 1 in
  let l := len_seq (SeqID o) l in
  let l := len_text (Method o) l in
  let l := len_text (Error o) l in
  if ColferSizeMax <? l then (l, Some ColferMax) else (l, None).

(** [MarshalBinary]: [data = make([]byte, l); o.MarshalTo(data)]. *)
Definition MarshalBinary (o : Header) : outcome (list byte * option error) :=
  match MarshalLen o with
  | (_, Some err) => Returns ([], Some err)
  | (l, None) =>
      match MarshalTo o (replicate (Z.to_nat l) x00) with
      | Some (data, _) => Returns (data, None)
      | None => Panics
      end
  end.

(** *** Unmarshalling *)

(** The decoder reads [data] through a cursor: the index [i] together
    with the bytes from [i] on, [rest = data[i:]].  The test
    [i >= len(data)] of the source is [rest = []], and [data[i]] is the
    head of [rest]. *)

(** The 64-bit varint loop (lines 169-180): returns the decoded value
    and the cursor, or [None] for the [io.EOF] return. *)
Fixpoint get_varint64 (rest : list byte) (i shift x : Z)
  : option (Z * Z * list byte) :=
  match rest with
  | [] => None
  | b :: rest' =>
      let b := Z_of_byte b in
      let i := i + 1 in
      if (shift =? 56) || (b <? 0x80) then
        Some (Z.lor x (wrap64 (Z.shiftl b shift)), i, rest')
      else
        get_varint64 rest' i (shift + 7)
          (Z.lor x (wrap64 (Z.shiftl (Z.land b 0x7f) shift)))
  end.

(** The 32-bit varint loop of the text fields (lines 199-210, 223-234). *)
Fixpoint get_varint32 (rest : list byte) (i shift x : Z)
  : option (Z * Z * list byte) :=
  match rest with
  | [] => None
  | b :: rest' =>
      let b := Z_of_byte b in
      let i := i + 1 in
      if b <? 0x80 then
        Some (Z.lor x (wrap32 (Z.shiftl b shift)), i, rest')
      else
        get_varint32 rest' i (shift + 7)
          (Z.lor x (wrap32 (Z.shiftl (Z.land b 0x7f) shift)))
  end.

(** Decoder state between two fields: the header being filled, the
    current field tag, and the cursor. *)
Record dstate := mkD {
  d_o : Header;
  d_header : Z;
  d_i : Z;
  d_rest : list byte
}.

(** A step either goes on with a state or returns early with the header
    as mutated so far; every early return of the source is
    [return 0, io.EOF]. *)
Definition step := (Header + dstate)%type.

Definition get_seq (s : dstate) : step :=
  let 'mkD o header i rest := s in
  if header =? 0 then
    match get_varint64 rest i 0 0 with
    | None => inl o
    | Some (x, i, rest) =>
        let o := set_SeqID o x in
        match rest with
        | [] => inl o
        | h :: rest => inr (mkD o (Z_of_byte h) (i + 1) rest)
        end
    end
  else if header =? Z.lor 0 0x80 then
    match rest with
    | d0 :: d1 :: d2 :: d3 :: d4 :: d5 :: d6 :: d7 :: h :: rest =>
        let v k d := wrap64 (Z.shiftl (Z_of_byte d) k) in
        let x :=
          Z.lor (Z.lor (Z.lor (Z.lor (Z.lor (Z.lor (Z.lor
            (v 56 d0) (v 48 d1)) (v 40 d2)) (v 32 d3)) (v 24 d4))
            (v 16 d5)) (v 8 d6)) (Z_of_byte d7) in
        inr (mkD (set_SeqID o x) (Z_of_byte h) (i + 9) rest)
    | _ => inl o
    end
  else inr s.

Definition get_text (tag : Z) (set : Header -> string -> Header) (s : dstate)
  : step :=
  let 'mkD o header i rest := s in
  if header =? tag then
    match get_varint32 rest i 0 0 with
    | None => inl o
    | Some (x, i, rest) =>
        let to := i + x in
        (* to >= len(data)  <->  x >= len(data[i:]) *)
        if len rest <=? x then inl o
        else
          let n := Z.to_nat x in
          let o := set o (string_of_bytes (take n rest)) in
          match drop n rest with
          | h :: rest => inr (mkD o (Z_of_byte h) (to + 1) rest)
          | [] => inl o
          end
    end
  else inr s.

(** The body of [Unmarshal] after the size check (lines 161-248). *)
Definition Unmarshal_body (o : Header) (data : list byte)
  : Header * Z * option error :=
  match data with
  | [] => (o, 0, Some EOF)
  | h :: rest =>
      match get_seq (mkD o (Z_of_byte h) 1 rest) with
      | inl o => (o, 0, Some EOF)
      | inr s =>
      match get_text 1 set_Method s with
      | inl o => (o, 0, Some EOF)
      | inr s =>
      match get_text 2 set_Error s with
      | inl o => (o, 0, Some EOF)
      | inr s =>
          if negb (d_header s =? 0x7f)
          then (d_o s, 0, Some (ColferError (d_i s - 1)))
          else (d_o s, d_i s, None)
      end end end
  end.

(** [Unmarshal] decodes [data] into [o] and returns the mutated header,
    the number of bytes read and the error. *)
Definition Unmarshal (o : Header) (data : list byte)
  : Header * Z * option error :=
  if ColferSizeMax <? len data then
    match Unmarshal_body o (take (Z.to_nat ColferSizeMax) data) with
    | (o, _, Some EOF) => (o, 0, Some ColferMax)
    | r => r
    end
  else Unmarshal_body o data.

Definition UnmarshalBinary (o : Header) (data : list byte)
  : Header * option error :=
  match Unmarshal o data with
  | (o, _, Some err) => (o, Some err)
  | (o, i, None) =>
      if negb (i =? len data) then (o, Some (ColferTail i)) else (o, None)
  end.

(** *** The serial form, field by field

    The byte sequence that [MarshalTo] writes, as a list: the proofs
    relate the in-place writes above to these lists and decode them. *)

Fixpoint enc_varint_loop (rounds : nat) (x : Z) : list byte * Z :=
  match rounds with
  | O => ([], x)
  | S rounds' =>
      if 0x80 <=? x then
        let '(bs, x') := enc_varint_loop rounds' (Z.shiftr x 7) in
        (byte_of_Z (Z.lor x 0x80) :: bs, x')
      else ([], x)
  end.

Definition enc_varint (x : Z) : list byte :=
  let '(bs, x') := enc_varint_loop varint_rounds x in bs ++ [byte_of_Z x'].

Definition enc_text (tag : Z) (s : string) : list byte :=
  if strlen s =? 0 then []
  else byte_of_Z tag :: enc_varint (strlen s) ++ bytes_of_string s.

Definition enc_fixed64 (x : Z) : list byte :=
  [byte_of_Z (Z.shiftr x 56); byte_of_Z (Z.shiftr x 48);
   byte_of_Z (Z.shiftr x 40); byte_of_Z (Z.shiftr x 32);
   byte_of_Z (Z.shiftr x 24); byte_of_Z (Z.shiftr x 16);
   byte_of_Z (Z.shiftr x 8); byte_of_Z x].

Definition enc_seq (x : Z) : list byte :=
  if 2 ^ 49 <=? x then byte_of_Z (Z.lor 0 0x80) :: enc_fixed64 x
  else if negb (x =? 0) then byte_of_Z 0 :: enc_varint x
  else [].

Definition encode (o : Header) : list byte :=
  enc_seq (SeqID o) ++ enc_text 1 (Method o) ++ enc_text 2 (Error o)
  ++ [byte_of_Z 0x7f].

(** What follows a field starts with the tag of a later field or with
    the end mark [0x7f]: a byte above [min] and below [0x80]. *)
Definition later_tag (min : Z) (l : list byte) : Prop :=
  exists h tl, l = h :: tl /\ min < Z_of_byte h < 0x80.

End Colfer.
(** ** The client: [Client.Call] and its fail modes (client/client.go) *)

Module Client.
Import Go.

(** [FailMode] decides the client's action when an invocation fails. *)
Inductive FailMode :=
  | Failover    (* selects another server automatically *)
  | Failfast    (* returns error immediately *)
  | Failtry     (* use current client again *)
  | Broadcast   (* success only when all servers return OK *)
  | Forking.    (* success once one server returns OK *)

(** The fields of [Client] that [Call] reads. *)
Record Client := mkClient {
  failMode : FailMode;
  MaxTry : Z          (* int *)
}.

(** [Client.init]: [if client.MaxTry <= 0 { client.MaxTry = 3 }]. *)
Definition init (c : Client) : Client :=
  if MaxTry c <=? 0 then mkClient (failMode c) 3 else c.

(** A receive on [done] either yields the next value sent or waits for
    ever when nothing more is sent. *)
Inductive recv (X : Type) :=
  | Done (x : X)
  | Blocked.
Arguments Done {X} x.
Arguments Blocked {X}.

Section Engine.

(** [W] is the state behind the interfaces (the selector's invoker cache
    and the network), [I] the type of invokers, [A] of arguments and [R]
    of reply values. *)
Context {W I A R : Type}.

(** The [Selector] interface.  [Select] may return a nil invoker
    ([None]) and an error independently of each other. *)
Class Selector := {
  Select : string -> A -> W -> W * option I * error;
  List : W -> list I;
  HandleFailed : I -> W -> W
}.

(** The synchronous method of the [Invoker] interface:
    [Call(serviceMethod, args, reply) error], which may write the reply
    destination. *)
Class Invoker := {
  Invoker_Call : I -> string -> A -> R -> W -> W * R * error
}.

Context `{Selector} `{Invoker}.

(** The client-side [Call] object that [Invoker.Go] sends on [done]. *)
Record Call := mkCall {
  ServiceMethod : string;
  Args : A;
  Reply : R;
  Error : error
}.

(** What [Client.Call] did to the interfaces, in program order, with
    what [Select] and [Invoker.Call] returned. *)
Inductive event :=
  | EvSelect (invoker : option I) (err : error)
  | EvCall (i : I) (err : error)
  | EvHandleFailed (i : I)
  | EvGo (i : I).

(** State threaded through [Client.Call]: the world, the reply, and the
    events so far (latest last).  [reply] is the value that the caller's
    argument [reply] points to: [Invoker.Call] writes it through the
    pointer it is given. *)
Record run := mkRun {
  world : W;
  reply : R;
  trace : list event
}.

Definition emit (e : event) (s : run) : run :=
  mkRun (world s) (reply s) (trace s ++ [e]).

Definition do_Select (sm : string) (a : A) (s : run) : run * option I * error :=
  let '(w, inv, err) := Select sm a (world s) in
  (emit (EvSelect inv err) (mkRun w (reply s) (trace s)), inv, err).

Definition do_Call (i : I) (sm : string) (a : A) (s : run) : run * error :=
  let '(w, r, err) := Invoker_Call i sm a (reply s) (world s) in
  (emit (EvCall i err) (mkRun w r (trace s)), err).

Definition do_HandleFailed (i : I) (s : run) : run :=
  emit (EvHandleFailed i) (mkRun (HandleFailed i (world s)) (reply s) (trace s)).

(** The [Failover] loop (lines 193-206); [tries] counts the rounds
    left and [err] is the named result. *)
Fixpoint failover_loop (tries : nat) (sm : string) (a : A)
  (err : error) (s : run) : error * run :=
  match tries with
  | O => (err, s)
  | S tries' =>
      let '(s, invoker, err) := do_Select sm a s in
      match err, invoker with
      | None, Some invoker =>
          let '(s, err) := do_Call invoker sm a s in
          match err with
          | None => (None, s)
          | Some _ =>
              failover_loop tries' sm a err (do_HandleFailed invoker s)
          end
      | _, _ => failover_loop tries' sm a err s     (* continue *)
      end
  end.

(** The [Failtry] loop (lines 209-225); [invoker] is the local variable
    that survives the rounds. *)
Fixpoint failtry_loop (tries : nat) (sm : string) (a : A)
  (invoker : option I) (err : error) (s : run) : error * run :=
  match tries with
  | O => (err, s)
  | S tries' =>
      let '(s, invoker, err) :=
        match invoker with
        | None => do_Select sm a s
        | Some _ => (s, invoker, err)
        end in
      match invoker with
      | Some i =>
          let '(s, err) := do_Call i sm a s in
          match err with
          | None => (None, s)
          | Some _ =>
              failtry_loop tries' sm a invoker err (do_HandleFailed i s)
          end
      | None => failtry_loop tries' sm a invoker err s
      end
  end.

(** The receive loop of [invokerBroadCast] (lines 245-255).  [done] lists
    the values the channel delivers, in order of arrival.  [reply] is
    the variable that the pointer argument [reply *interface{}] of
    [invokerBroadCast] addresses; [*reply = call.Reply] assigns it, and
    the loop returns it next to the error. *)
Fixpoint broadcast_loop (l : nat) (done : list (option Call)) (reply : R)
  (s : run) : recv (error * R * run) :=
  match l with
  | O => Done (None, reply, s)
  | S l' =>
      match done with
      | [] => Blocked
      | call :: done' =>
          match call with
          | Some call =>
              match Error call with
              | None => broadcast_loop l' done' (Reply call) s
              | Some _ =>
                  Done (Some (Err "some invokers return Error"), reply, s)
              end
          | None => Done (Some (Err "some invokers return Error"), reply, s)
          end
      end
  end.

(** The receive loop of [invokerForking] (lines 274-287), with [reply]
    as in [broadcast_loop]. *)
Fixpoint forking_loop (l : nat) (done : list (option Call)) (reply : R)
  (s : run) : recv (error * R * run) :=
  match l with
  | O => Done (Some (Err "all invokers return Error"), reply, s)
  | S l' =>
      match done with
      | [] => Blocked
      | call :: done' =>
          match call with
          | Some call =>
              match Error call with
              | None => Done (None, Reply call, s)  (* *reply = call.Reply *)
              | Some _ => forking_loop l' done' reply s
              end
          | None =>
              Done (Some (Err "all invokers return Error"), reply, s) (* break *)
          end
      end
  end.

(** [for _, invoker := range invokers { invoker.Go(...) }]. *)
Definition dispatch (invokers : list I) (s : run) : run :=
  fold_left (fun s i => emit (EvGo i) s) invokers s.

(** [invokerBroadCast] and [invokerForking] (lines 231-290).  [reply]
    is the variable behind their pointer argument; the result carries
    what the variable holds at the return. *)
Definition invokerBroadCast (done : list (option Call)) (reply : R) (s : run)
  : recv (error * R * run) :=
  let invokers := List (world s) in
  if len invokers =? 0 then Done (None, reply, s)
  else broadcast_loop (length invokers) done reply (dispatch invokers s).

Definition invokerForking (done : list (option Call)) (reply : R) (s : run)
  : recv (error * R * run) :=
  let invokers := List (world s) in
  if len invokers =? 0 then Done (None, reply, s)
  else forking_loop (length invokers) done reply (dispatch invokers s).

(** [return client.invokerForking(serviceMethod, args, &reply)] (lines
    184 and 187): the pointer is to the parameter [reply] of
    [Client.Call] itself, a copy of the caller's argument, and [Call]
    returns the error alone.  What the fan-out stored in the parameter
    goes out of scope with it. *)
Definition return_err (r : recv (error * R * run)) : recv (error * run) :=
  match r with
  | Done (err, _, s) => Done (err, s)
  | Blocked => Blocked
  end.

(** [Client.Call] (lines 182-229).  [done] is only read by the two
    fan-out modes. *)
Definition Client_Call (client : Client) (sm : string) (a : A)
  (done : list (option Call)) (s : run) : recv (error * run) :=
  match failMode client with
  | Broadcast => return_err (invokerBroadCast done (reply s) s)
  | Forking => return_err (invokerForking done (reply s) s)
  | Failover => Done (failover_loop (Z.to_nat (MaxTry client)) sm a None s)
  | Failtry => Done (failtry_loop (Z.to_nat (MaxTry client)) sm a None None s)
  | Failfast => Done (None, s)
  end.

(** Modelled from the spec: the implementations of [Invoker] are not
    among the sources.  Section 3 has a [Call] "signaled once by writing
    itself to done": every invoker in [invokers] sends its own completed
    call exactly once, so the values that [done] delivers are the
    completed calls [results] (the [k]-th one belongs to the [k]-th
    invoker) in some order. *)
Definition delivers (invokers : list I) (results : list Call)
  (done : list (option Call)) : Prop :=
  length results = length invokers /\ Permutation done (map Some results).

(** A completed call carries no error / carries one. *)
Definition succeeded (c : Call) : Prop := Error c = None.
Definition failed (c : Call) : Prop := Error c <> None.

(** Events of one kind in a trace. *)
Definition calls (t : list event) : list I :=
  omap (fun e => match e with EvCall i _ => Some i | _ => None end) t.
Definition handled (t : list event) : list I :=
  omap (fun e => match e with EvHandleFailed i => Some i | _ => None end) t.
Definition dispatched (t : list event) : list I :=
  omap (fun e => match e with EvGo i => Some i | _ => None end) t.
Definition selects (t : list event) : list (option I) :=
  omap (fun e => match e with EvSelect i _ => Some i | _ => None end) t.

(** One failed round of the [Failover] loop on invoker [i], whose call
    returned the error [e]. *)
Definition failed_round (att : I * err) : list event :=
  [EvSelect (Some att.1) None; EvCall att.1 (Some att.2); EvHandleFailed att.1].

(** A selector that does not recover, over a number of attempts: from
    the world [w] and the reply [r], every [Select] in turn hands out
    an invoker without error, the call on that invoker fails, and
    [HandleFailed] is told; [attempts] lists the invokers with the
    errors of their calls, and the last two arguments are the world and
    the reply after the last [HandleFailed]. *)
Inductive never_recovers (sm : string) (a : A)
  : list (I * err) -> W -> R -> W -> R -> Prop :=
  | no_attempt w r : never_recovers sm a [] w r w r
  | failed_attempt i e attempts w r w1 w2 r2 w' r' :
      Select sm a w = (w1, Some i, None) ->
      Invoker_Call i sm a r w1 = (w2, r2, Some e) ->
      never_recovers sm a attempts (HandleFailed i w2) r2 w' r' ->
      never_recovers sm a ((i, e) :: attempts) w r w' r'.

End Engine.

Arguments Selector : clear implicits.
Arguments Invoker : clear implicits.
Arguments Call : clear implicits.
Arguments event : clear implicits.
Arguments run : clear implicits.

(** *** A scripted selector and invoker, for running the engine

    Invokers are numbers; the world is the list of live invokers
    together with the errors the coming calls return (one per call,
    [None] for a success). *)
Module Script.

Record world := mkWorld {
  live : list nat;
  outcomes : list error
}.

#[global] Instance selector : Selector world nat unit :=
  {| Select := fun _ _ w =>
       match live w with
       | i :: _ => (w, Some i, None)
       | [] => (w, None, Some (Err "no invoker"))
       end;
     List := live;
     HandleFailed := fun i w =>
       mkWorld (filter (fun j => j <> i) (live w) ++ [i]) (outcomes w) |}.

#[global] Instance invoker : Invoker world nat unit Z :=
  {| Invoker_Call := fun i _ _ r w =>
       match outcomes w with
       | None :: rest => (mkWorld (live w) rest, Z.of_nat i, None)
       | Some e :: rest => (mkWorld (live w) rest, r, Some e)
       | [] => (w, r, Some (Err "connection is shut down"))
       end |}.

Definition start (w : world) (r : Z) : run world nat Z := mkRun w r [].

End Script.

(** *** A selector over one endpoint that never recovers: it hands out
    invoker [7] every time, and every call is refused. *)
Module Down.

#[global] Instance selector : Selector unit nat unit :=
  {| Select := fun _ _ w => (w, Some 7%nat, None);
     List := fun _ => [7%nat];
     HandleFailed := fun _ w => w |}.

#[global] Instance invoker : Invoker unit nat unit Z :=
  {| Invoker_Call := fun _ _ _ r w => (w, r, Some (Err "connection refused")) |}.

Definition start (r : Z) : run unit nat Z := mkRun tt r [].

End Down.

(** *** A selector that evicts the invokers that failed *)
Module Evicting.

(** Modelled from the spec: the selectors are not among the sources.
    Section 4.5 has the reference selectors hold a lazy invoker cache,
    and "on HandleFailed: close and evict the invoker; next selection
    rebuilds it via the factory".  The world is the cache; the endpoints
    are down for good, so the factory cannot rebuild an invoker that was
    evicted and [Select] returns the dial error. *)
#[global] Instance selector : Selector (list nat) nat unit :=
  {| Select := fun _ _ cache =>
       match cache with
       | i :: _ => (cache, Some i, None)
       | [] => (cache, None, Some (Err "dial error"))
       end;
     List := fun cache => cache;
     HandleFailed := fun i cache => filter (fun j => j <> i) cache |}.

#[global] Instance invoker : Invoker (list nat) nat unit Z :=
  {| Invoker_Call := fun _ _ _ r cache =>
       (cache, r, Some (Err "connection is shut down")) |}.

Definition start (cache : list nat) (r : Z) : run (list nat) nat Z :=
  mkRun cache r [].

End Evicting.

End Client.
(** ** The server: registry, context pool, request pipeline
       (server/server.go, server/server_context.go) *)

Module Server.
Import Go.

(** *** Values the server handles *)

(** [reflect.Type], as far as [readRequest] looks at it: a pointer type
    or another one. *)
Inductive rtype :=
  | Ptr (elem : rtype)
  | Named (name : string).

(** The content of a Go value that a codec decodes or encodes. *)
Definition payload := list Z.

(** A valid [reflect.Value]; the zero [reflect.Value{}] is [None] where
    a field holds one. *)
Record rvalue := mkValue {
  v_type : rtype;
  v_content : payload
}.

(** [reflect.New(t)]: a pointer to a new zero value of type [t]. *)
Definition reflect_New (t : rtype) : rvalue := mkValue (Ptr t) [].

(** [v.Elem()] of a pointer value. *)
Definition Elem (v : rvalue) : rvalue :=
  match v_type v with
  | Ptr t => mkValue t (v_content v)
  | Named _ => v
  end.

(** The body handed to the codec and to the body hooks:
    [invalidRequest], a reply value, or nil. *)
Inductive body :=
  | invalidRequest
  | BodyOf (v : rvalue)
  | BodyNil.

Record Request := mkRequest {
  req_ServiceMethod : string;
  req_Seq : Z                     (* uint64 *)
}.

Record Response := mkResponse {
  resp_ServiceMethod : string;
  resp_Seq : Z;                   (* uint64 *)
  resp_Error : string
}.

(** [url.Values]. *)
Abbreviation Values := (gmap string (list string)).

(** Modelled from the spec: the package [common] is not among the
    sources.  [common.ErrorType] is the numeric error kind of section 7,
    with the codes listed there; a [Context] that has seen no failure
    holds the zero value. *)
Definition ErrorType := Z.
Definition ErrorTypeServerPreReadRequestHeader : ErrorType := 1.
Definition ErrorTypeServerReadRequestHeader : ErrorType := 2.
Definition ErrorTypeServerInvalidServiceMethod : ErrorType := 3.
Definition ErrorTypeServerPostReadRequestHeader : ErrorType := 4.
Definition ErrorTypeServerNotFoundService : ErrorType := 5.
Definition ErrorTypeServerPreReadRequestBody : ErrorType := 6.
Definition ErrorTypeServerReadRequestBody : ErrorType := 7.
Definition ErrorTypeServerPostReadRequestBody : ErrorType := 8.
Definition ErrorTypeServerPreWriteResponse : ErrorType := 9.
Definition ErrorTypeServerPostWriteResponse : ErrorType := 10.

(** Modelled from the spec: [common.NewError(msg)] is an error whose
    message is [msg]. *)
Definition NewError (msg : string) : err := Err msg.

(** Modelled from the spec: the kinds that section 7 lists, those of
    the server (1 to 10) and the six of the client after them. *)
Definition listed_kind (k : ErrorType) : Prop := 1 <= k <= 16.

(** [strconv.Itoa]. *)
Definition Itoa (n : Z) : string := pretty n.

(** *** Plugins

    Plugins live outside the package and reach a [Context] through its
    exported methods only: they read [Seq], [Path], [Query], [Data] and
    write through [SetPath] and [SetData]. *)
Record ctx_view := mkView {
  view_Seq : Z;
  view_Path : string;
  view_Query : Values;
  view_Data : option (gmap string string)
}.

Inductive ctx_op :=
  | OpSetPath (p : string)
  | OpSetData (key val : string).

(** A hook returns the writes it made and its error. *)
Definition hook := ctx_view -> list ctx_op * error.

(** The receiver object handed to [Register], by the name of its type. *)
Definition receiver := string.

(** [reflect.ValueOf(rcvr).String()] on a receiver that is not a
    string: ["<T Value>"], where [T] is the receiver's type. *)
Definition reflect_ValueOf_String (rcvr : receiver) : string :=
  "<" +:+ rcvr +:+ " Value>".

(** The [IServerPluginContainer] interface, which is not among the
    sources: one function per hook of section 4.7. *)
Record PluginContainer := mkPlugins {
  doPreReadRequestHeader : hook;
  doPostReadRequestHeader : hook;
  doPreReadRequestBody : body -> hook;
  doPostReadRequestBody : body -> hook;
  doPreWriteResponse : body -> hook;
  doPostWriteResponse : body -> hook;
  doRegister : string -> receiver -> list string -> error
}.

Definition no_hook : hook := fun _ => ([], None).

(** [new(ServerPluginContainer)]: no plugin. *)
Definition no_plugins : PluginContainer :=
  mkPlugins no_hook no_hook (fun _ => no_hook) (fun _ => no_hook)
    (fun _ => no_hook) (fun _ => no_hook) (fun _ _ _ => None).

(** The [IService] interface.  [svc_call argv replyv view] is
    [Service.Call]: it returns the reply value as the handler left it,
    the writes the handler made to the context, and the handler's
    error. *)
Record Service := mkService {
  svc_rcvr : receiver;
  svc_path : string;                      (* GetPath *)
  svc_argType : rtype;                    (* GetArgType *)
  svc_replyType : rtype;                  (* GetReplyType *)
  svc_call : rvalue -> rvalue -> ctx_view -> rvalue * list ctx_op * error;
  svc_plugins : PluginContainer           (* GetPluginContainer *)
}.

Definition SetPluginContainer (s : Service) (p : PluginContainer) : Service :=
  mkService (svc_rcvr s) (svc_path s) (svc_argType s) (svc_replyType s)
    (svc_call s) p.

(** *** Context (server_context.go, lines 17-30)

    The [server] pointer is set once by the pool's [New] and never
    written again; the model passes the server alongside.  [codecConn] is
    the number of the connection the context is bound to. *)
Record Context := mkContext {
  codecConn : option nat;
  req : Request;
  resp : Response;
  service : option Service;
  argv : option rvalue;
  replyv : option rvalue;
  path : string;
  query : Values;
  data : option (gmap string string);
  rpcErrorType : ErrorType
}.

(** The context that the pool's [New] builds (server.go, lines 64-70). *)
Definition newContext : Context :=
  mkContext None (mkRequest "" 0) (mkResponse "" 0 "") None None None
    "" ∅ None 0.

(** Field updates. *)
Definition with_req (c : Context) (r : Request) : Context :=
  mkContext (codecConn c) r (resp c) (service c) (argv c) (replyv c)
    (path c) (query c) (data c) (rpcErrorType c).
Definition with_resp (c : Context) (r : Response) : Context :=
  mkContext (codecConn c) (req c) r (service c) (argv c) (replyv c)
    (path c) (query c) (data c) (rpcErrorType c).
Definition with_service (c : Context) (s : option Service) : Context :=
  mkContext (codecConn c) (req c) (resp c) s (argv c) (replyv c)
    (path c) (query c) (data c) (rpcErrorType c).
Definition with_argv (c : Context) (v : option rvalue) : Context :=
  mkContext (codecConn c) (req c) (resp c) (service c) v (replyv c)
    (path c) (query c) (data c) (rpcErrorType c).
Definition with_replyv (c : Context) (v : option rvalue) : Context :=
  mkContext (codecConn c) (req c) (resp c) (service c) (argv c) v
    (path c) (query c) (data c) (rpcErrorType c).
Definition with_path (c : Context) (p : string) : Context :=
  mkContext (codecConn c) (req c) (resp c) (service c) (argv c) (replyv c)
    p (query c) (data c) (rpcErrorType c).
Definition with_query (c : Context) (q : Values) : Context :=
  mkContext (codecConn c) (req c) (resp c) (service c) (argv c) (replyv c)
    (path c) q (data c) (rpcErrorType c).
Definition with_data (c : Context) (d : option (gmap string string)) : Context :=
  mkContext (codecConn c) (req c) (resp c) (service c) (argv c) (replyv c)
    (path c) (query c) d (rpcErrorType c).
Definition with_rpcErrorType (c : Context) (t : ErrorType) : Context :=
  mkContext (codecConn c) (req c) (resp c) (service c) (argv c) (replyv c)
    (path c) (query c) (data c) t.
Definition with_codecConn (c : Context) (n : option nat) : Context :=
  mkContext n (req c) (resp c) (service c) (argv c) (replyv c)
    (path c) (query c) (data c) (rpcErrorType c).

(** [ctx.SetPath] and [ctx.SetData] (lines 61-63, 94-99). *)
Definition SetPath (c : Context) (p : string) : Context := with_path c p.

Definition SetData (c : Context) (key val : string) : Context :=
  let d := match data c with Some d => d | None => ∅ end in
  with_data c (Some (<[key := val]> d)).

Definition view (c : Context) : ctx_view :=
  mkView (req_Seq (req c)) (path c) (query c) (data c).

Definition apply_op (c : Context) (op : ctx_op) : Context :=
  match op with
  | OpSetPath p => SetPath c p
  | OpSetData k v => SetData c k v
  end.

(** Running a hook on a context. *)
Definition run_hook (h : hook) (c : Context) : Context * error :=
  let '(ops, e) := h (view c) in (fold_left apply_op ops c, e).

(** *** The server *)

(** The [IServiceBuilder] interface, which is not among the sources. *)
Record ServiceBuilder := mkBuilder {
  NewServices : receiver -> list string -> list Service * error;
  URIParse : string -> string * Values * error
}.

(** The fields of [Server] that the modelled functions use.  The three
    timeouts only set deadlines on the connection and are left out.
    [contextPool] holds the contexts that were put back. *)
Record Server := mkServer {
  PluginContainer_ : PluginContainer;
  ServiceBuilder_ : ServiceBuilder;
  serviceMap : gmap string Service;
  routers : list string;
  contextPool : list Context
}.

Definition with_pool (s : Server) (p : list Context) : Server :=
  mkServer (PluginContainer_ s) (ServiceBuilder_ s) (serviceMap s) (routers s) p.

(** *** Registration (server.go, lines 161-213) *)

(** Modelled from the spec: the errors of the package [common] that
    [register] builds, kept as constructors:
    [common.ErrServiceAlreadyExists.Format(spath)] and
    [common.NewRPCError(msg)]. *)
Inductive reg_err :=
  | ErrServiceAlreadyExists (spath : string)
  | NewRPCError (msg : string)
  | Plain (e : err).          (* an error value passed on as it is *)

(** What [register] returns: nil, a single error, or
    [common.NewMultiError(errs)]. *)
Inductive reg_result :=
  | RegNil
  | RegError (e : reg_err)
  | NewMultiError (errs : list reg_err).

(** [sort.Strings]: insertion into a list sorted by [String.leb]. *)
Fixpoint insert_sorted (s : string) (l : list string) : list string :=
  match l with
  | [] => [s]
  | x :: l' => if String.leb s x then s :: l else x :: insert_sorted s l'
  end.

Definition sort_Strings (l : list string) : list string :=
  fold_right insert_sorted [] l.

Definition append_error (errs : list reg_err) (e : error) : list reg_err :=
  match e with
  | Some e => errs ++ [NewRPCError (Error_string e)]
  | None => errs
  end.

(** The body of the loop over [services] (lines 172-206).  The notices
    about plugin methods that will not run and the router print only
    write to the log. *)
Definition register_one (rcvr : receiver) (p : PluginContainer)
  (metadata : list string) (acc : Server * list reg_err) (service : Service)
  : Server * list reg_err :=
  let '(server, errs) := acc in
  let spath := svc_path service in
  let errs :=
    match serviceMap server !! spath with
    | Some _ => errs ++ [ErrServiceAlreadyExists spath]
    | None => errs
    end in
  let errs :=
    append_error errs (doRegister (PluginContainer_ server) spath rcvr metadata) in
  let errs := append_error errs (doRegister p spath rcvr metadata) in
  let service := SetPluginContainer service p in
  (mkServer (PluginContainer_ server) (ServiceBuilder_ server)
     (<[spath := service]> (serviceMap server))
     (routers server ++ [spath])
     (contextPool server),
   errs).

Definition register (server : Server) (pathSegments : list string)
  (rcvr : receiver) (p : PluginContainer) (metadata : list string)
  : Server * reg_result :=
  match NewServices (ServiceBuilder_ server) rcvr pathSegments with
  | (_, Some e) => (server, RegError (NewRPCError (Error_string e)))
  | (services, None) =>
      if len services =? 0 then
        (server,
         RegError (NewRPCError
           ("Can not register invalid service: '"
            +:+ reflect_ValueOf_String rcvr +:+ "'")))
      else
        let '(server, errs) :=
          fold_left (register_one rcvr p metadata) services (server, []) in
        if 0 <? len errs then (server, NewMultiError errs)
        else
          (mkServer (PluginContainer_ server) (ServiceBuilder_ server)
             (serviceMap server) (sort_Strings (routers server))
             (contextPool server),
           RegNil)
  end.

(** [Server.RegisterName] (lines 128-134); [CheckSname] belongs to the
    package [common] and is taken as a parameter. *)
Definition RegisterName (CheckSname : string -> error) (server : Server)
  (name : string) (rcvr : receiver) (metadata : list string)
  : Server * reg_result :=
  match CheckSname name with
  | Some e => (server, RegError (Plain e))
  | None => register server [name] rcvr no_plugins metadata
  end.

(** *** The context pool (server.go, lines 485-510) *)

(** The assignments of [getContext] on the context that the pool hands
    out, in the order of the source. *)
Definition reset (ctx : Context) (conn : nat) : Context :=
  let ctx := with_req ctx (mkRequest "" (req_Seq (req ctx))) in
  let ctx := with_req ctx (mkRequest (req_ServiceMethod (req ctx)) 0) in
  let ctx := with_resp ctx
    (mkResponse (resp_ServiceMethod (resp ctx)) (resp_Seq (resp ctx)) "") in
  let ctx := with_resp ctx
    (mkResponse (resp_ServiceMethod (resp ctx)) 0 (resp_Error (resp ctx))) in
  let ctx := with_resp ctx
    (mkResponse "" (resp_Seq (resp ctx)) (resp_Error (resp ctx))) in
  let ctx := with_data ctx (Some ∅) in
  let ctx := with_service ctx None in
  let ctx := with_codecConn ctx (Some conn) in
  let ctx := with_service ctx None in
  let ctx := with_query ctx ∅ in
  let ctx := with_argv ctx None in
  let ctx := with_replyv ctx None in
  ctx.

(** [sync.Pool.Get]: a context that was put back, or a new one.  A
    [sync.Pool] promises no order and may drop what it holds; the model
    hands out the context that was put back last.  [reset] and the
    properties of the pipeline are stated for any context that comes out
    of the pool. *)
Definition pool_Get (pool : list Context) : Context * list Context :=
  match pool with
  | ctx :: pool' => (ctx, pool')
  | [] => (newContext, [])
  end.

Definition getContext (server : Server) (conn : nat) : Context * Server :=
  let '(ctx, pool) := pool_Get (contextPool server) in
  (reset ctx conn, with_pool server pool).

Definition putContext (server : Server) (ctx : Context) : Server :=
  let ctx := with_data ctx None in
  let ctx := with_codecConn ctx None in
  with_pool server (ctx :: contextPool server).

(** What a freshly checked-out context would hold if every mutable field
    were reset: the value of [newContext] with the fields that
    [getContext] initialises ([data], [query], [codecConn]). *)
Definition checked_out (conn : nat) : Context :=
  mkContext (Some conn) (mkRequest "" 0) (mkResponse "" 0 "") None None None
    "" ∅ (Some ∅) 0.

(** *** The codec and the connection *)

(** The [rpc.ServerCodec] interface behind a [ServerCodecConn], over a
    codec state [C].  [ReadRequestHeader] fills the request it is given;
    [ReadRequestBody] decodes into the value its argument points to, or
    discards the body when the argument is nil, and returns the content
    it decoded. *)
Class ServerCodec (C : Type) := {
  ReadRequestHeader : C -> Request -> C * Request * error;
  ReadRequestBody : C -> option rvalue -> C * payload * error;
  WriteResponse : C -> Response -> body -> C * error;
  Close : C -> C
}.

(** The calls made on the codec, in program order. *)
Inductive event :=
  | EvReadHeader
  | EvReadBody (dest : option rvalue)
  | EvWrite (r : Response) (b : body)
  | EvClose.

Section Pipeline.
Context {C : Type} `{!ServerCodec C}.

(** A connection: the codec state and the calls made on the codec so
    far (latest last). *)
Record conn := mkConn {
  codec : C;
  wire : list event
}.

Definition set_rpcErrorType := with_rpcErrorType.

(** [Context.readRequestHeader] (server_context.go, lines 101-158).  The
    result is [(keepReading, notSend, err)] with the context and the
    connection as the call left them. *)
Definition readRequestHeader (server : Server) (ctx : Context) (cn : conn)
  : bool * bool * error * Context * conn :=
  (* pre *)
  let '(ctx, err) :=
    run_hook (doPreReadRequestHeader (PluginContainer_ server)) ctx in
  match err with
  | Some e =>
      (false, false, Some e,
       set_rpcErrorType ctx ErrorTypeServerPreReadRequestHeader, cn)
  | None =>
  (* decode request header *)
  let '(c, r, err) := ReadRequestHeader (codec cn) (req ctx) in
  let ctx := with_req ctx r in
  let cn := mkConn c (wire cn ++ [EvReadHeader]) in
  match err with
  | Some e =>
      let ctx := set_rpcErrorType ctx ErrorTypeServerReadRequestHeader in
      match e with
      | io_EOF | io_ErrUnexpectedEOF => (false, true, Some e, ctx, cn)
      | _ =>
          (false, false,
           Some (NewError ("ReadRequestHeader: " +:+ Error_string e)), ctx, cn)
      end
  | None =>
  (* keepReading = true; parse serviceMethod *)
  let '(p, q, err) :=
    URIParse (ServiceBuilder_ server) (req_ServiceMethod (req ctx)) in
  let ctx := with_query (with_path ctx p) q in
  match err with
  | Some e =>
      (true, false, Some (NewError (Error_string e)),
       set_rpcErrorType ctx ErrorTypeServerInvalidServiceMethod, cn)
  | None =>
  (* post *)
  let '(ctx, err) :=
    run_hook (doPostReadRequestHeader (PluginContainer_ server)) ctx in
  match err with
  | Some e =>
      (true, false, Some e,
       set_rpcErrorType ctx ErrorTypeServerPostReadRequestHeader, cn)
  | None =>
  (* get service *)
  let ctx := with_service ctx (serviceMap server !! path ctx) in
  match service ctx with
  | None =>
      (true, false,
       Some (NewError ("can't find service '" +:+ path ctx +:+ "'")),
       set_rpcErrorType ctx ErrorTypeServerNotFoundService, cn)
  | Some _ => (true, false, None, ctx, cn)
  end end end end end.

(** The [PreWriteResponse] hooks of [writeResponse] (lines 203-206):
    the server's, then the service's. *)
Definition preWriteResponse (server : Server) (ctx : Context) (b : body)
  : Context * error :=
  let '(ctx, err) :=
    run_hook (doPreWriteResponse (PluginContainer_ server) b) ctx in
  match err, service ctx with
  | None, Some svc => run_hook (doPreWriteResponse (svc_plugins svc) b) ctx
  | _, _ => (ctx, err)
  end.

(** The [PreReadRequestBody] hooks of [readRequestBody] (lines 163-166). *)
Definition preReadRequestBody (server : Server) (ctx : Context) (b : body)
  : Context * error :=
  let '(ctx, err) :=
    run_hook (doPreReadRequestBody (PluginContainer_ server) b) ctx in
  match err, service ctx with
  | None, Some svc => run_hook (doPreReadRequestBody (svc_plugins svc) b) ctx
  | _, _ => (ctx, err)
  end.

Definition body_of (dest : option rvalue) : body :=
  match dest with
  | Some v => BodyOf v
  | None => BodyNil
  end.

(** [Context.readRequestBody] (lines 160-189).  [dest] is the pointer
    the body is decoded into, nil to discard it.  The last component is
    the content the codec decoded, when the codec was reached. *)
Definition readRequestBody (server : Server) (ctx : Context)
  (dest : option rvalue) (cn : conn)
  : error * Context * conn * option payload :=
  (* pre *)
  let '(ctx, err) := preReadRequestBody server ctx (body_of dest) in
  match err with
  | Some e =>
      (Some e, set_rpcErrorType ctx ErrorTypeServerPreReadRequestBody, cn, None)
  | None =>
  let '(c, content, err) := ReadRequestBody (codec cn) dest in
  let cn := mkConn c (wire cn ++ [EvReadBody dest]) in
  match err with
  | Some e =>
      (Some (NewError ("ReadRequestBody: " +:+ Error_string e)),
       set_rpcErrorType ctx ErrorTypeServerReadRequestBody, cn, Some content)
  | None =>
  (* post: the hooks see the destination as the codec filled it *)
  let filled :=
    body_of ((fun v => mkValue (v_type v) content) <$> dest) in
  let '(ctx, err) :=
    match service ctx with
    | Some svc => run_hook (doPostReadRequestBody (svc_plugins svc) filled) ctx
    | None => (ctx, None)
    end in
  let '(ctx, err) :=
    match err with
    | None =>
        run_hook (doPostReadRequestBody (PluginContainer_ server) filled) ctx
    | Some _ => (ctx, err)
    end in
  match err with
  | Some e =>
      (Some e, set_rpcErrorType ctx ErrorTypeServerPostReadRequestBody, cn,
       Some content)
  | None => (None, ctx, cn, Some content)
  end end end.

(** The value [ctx.argv] shares its storage with the pointer the codec
    decodes into: what the codec wrote shows through it. *)
Definition decoded_into (v : option rvalue) (content : option payload)
  : option rvalue :=
  match v, content with
  | Some v, Some content => Some (mkValue (v_type v) content)
  | _, _ => v
  end.

(** [Server.readRequest] (server.go, lines 403-449).  [Panics] is the
    nil dereference of [ctx.service], which [readRequestHeader] rules
    out when it returns no error. *)
Definition readRequest (server : Server) (ctx : Context) (cn : conn)
  : outcome (bool * bool * error * Context * conn) :=
  let '(keepReading, notSend, err, ctx, cn) :=
    readRequestHeader server ctx cn in
  match err with
  | Some _ =>
      if negb keepReading then Returns (keepReading, notSend, err, ctx, cn)
      else
        (* discard body *)
        let '(_, ctx, cn, _) := readRequestBody server ctx None cn in
        Returns (keepReading, notSend, err, ctx, cn)
  | None =>
  match service ctx with
  | None => Panics
  | Some svc =>
  (* get arg value *)
  let argType := svc_argType svc in
  let '(argv, argIsValue) :=
    match argType with
    | Ptr elem => (reflect_New elem, false)
    | Named _ => (reflect_New argType, true)
    end in
  let ctx := with_argv ctx (Some (if argIsValue : bool then Elem argv else argv)) in
  (* decode the argument value *)
  let '(err, ctx, cn, content) := readRequestBody server ctx (Some argv) cn in
  let ctx := with_argv ctx (decoded_into (Server.argv ctx) content) in
  match err with
  | Some _ => Returns (keepReading, notSend, err, ctx, cn)
  | None =>
  (* get reply value *)
  let replyType := svc_replyType svc in
  let replyv :=
    match replyType with
    | Ptr elem => reflect_New elem
    | Named _ => Elem (reflect_New replyType)
    end in
  Returns (keepReading, notSend, err, with_replyv ctx (Some replyv), cn)
  end end end.

Definition set_resp_Error (ctx : Context) (e : string) : Context :=
  with_resp ctx
    (mkResponse (resp_ServiceMethod (resp ctx)) (resp_Seq (resp ctx)) e).

(** [Context.writeResponse] (server_context.go, lines 192-231). *)
Definition writeResponse (server : Server) (ctx : Context) (b : body)
  (cn : conn) : error * Context * conn :=
  (* pre *)
  let '(ctx, err) := preWriteResponse server ctx b in
  let '(ctx, b) :=
    match err with
    | Some e =>
        (set_resp_Error
           (set_rpcErrorType ctx ErrorTypeServerPreWriteResponse)
           (Error_string e),
         BodyNil)
    | None => (ctx, b)
    end in
  let ctx :=
    if 0 <? strlen (resp_Error (resp ctx)) then
      set_resp_Error ctx (Itoa (rpcErrorType ctx) +:+ resp_Error (resp ctx))
    else ctx in
  let '(c, err) := WriteResponse (codec cn) (resp ctx) b in
  let cn := mkConn c (wire cn ++ [EvWrite (resp ctx) b]) in
  match err with
  | Some e => (Some (NewError ("WriteResponse: " +:+ Error_string e)), ctx, cn)
  | None =>
  (* post *)
  let '(ctx, err) :=
    match service ctx with
    | Some svc => run_hook (doPostWriteResponse (svc_plugins svc) b) ctx
    | None => (ctx, None)
    end in
  let '(ctx, err) :=
    match err with
    | None => run_hook (doPostWriteResponse (PluginContainer_ server) b) ctx
    | Some _ => (ctx, err)
    end in
  (err, ctx, cn)
  end.

(** [Server.sendResponse] (server.go, lines 465-483).  [Panics] is
    [ctx.replyv.Interface()] on the zero [reflect.Value].  The write
    lock [sending] orders the writers and has no state of its own. *)
Definition sendResponse (server : Server) (ctx : Context) (errmsg : string)
  (cn : conn) : outcome (Server * conn) :=
  (* Encode the response header *)
  let ctx :=
    with_resp ctx
      (mkResponse (req_ServiceMethod (req ctx)) (resp_Seq (resp ctx))
         (resp_Error (resp ctx))) in
  let prepared :=
    if negb (String.eqb errmsg "") then
      Returns (set_resp_Error ctx errmsg, invalidRequest)
    else
      match replyv ctx with
      | Some v => Returns (ctx, BodyOf v)
      | None => Panics
      end in
  match prepared with
  | Panics => Panics
  | Returns (ctx, reply) =>
      let ctx :=
        with_resp ctx
          (mkResponse (resp_ServiceMethod (resp ctx)) (req_Seq (req ctx))
             (resp_Error (resp ctx))) in
      let '(_, ctx, cn) := writeResponse server ctx reply cn in
      Returns (putContext server ctx, cn)
  end.

(** The message and the body that [sendResponse] hands to
    [writeResponse] (lines 469-474). *)
Definition response_message (ctx : Context) (errmsg : string) : string :=
  if String.eqb errmsg "" then resp_Error (resp ctx) else errmsg.

Definition response_body (ctx : Context) (errmsg : string) : body :=
  if String.eqb errmsg "" then body_of (replyv ctx) else invalidRequest.


(** The error message that [call] passes on (lines 453-456). *)
Definition errmsg_of (e : error) : string :=
  match e with
  | Some e => Error_string e
  | None => ""
  end.

(** [Server.call] (lines 451-458), the body of the task that
    [ServeConn] starts for a request that was read.  [Panics] stands for
    the failures inside [Service.Call] on a context without service or
    values, which [readRequest] rules out. *)
Definition call (server : Server) (ctx : Context) (cn : conn)
  : outcome (Server * conn) :=
  match service ctx, argv ctx, replyv ctx with
  | Some svc, Some a, Some r =>
      let '(r, ops, err) := svc_call svc a r (view ctx) in
      let ctx := fold_left apply_op ops (with_replyv ctx (Some r)) in
      sendResponse server ctx (errmsg_of err) cn
  | _, _, _ => Panics
  end.

(** The state of a server with one connection: the server, the
    connection, and the contexts of the tasks [go server.call(...)]
    that were started and have not run yet. *)
Record state := mkState {
  srv : Server;
  cn : conn;
  spawned : list Context
}.

Inductive flow := Continue | Break.

(** One round of the loop of [Server.ServeConn] (lines 354-374) on
    connection number [id].  The codec is bound to the connection
    before the loop (lines 350-352); the model starts from the bound
    codec. *)
Definition ServeConn_round (id : nat) (st : state) : outcome (flow * state) :=
  let '(ctx, server) := getContext (srv st) id in
  match readRequest server ctx (cn st) with
  | Panics => Panics
  | Returns (keepReading, notSend, err, ctx, cn) =>
      match err with
      | Some e =>
          if negb keepReading then
            Returns (Break, mkState (putContext server ctx) cn (spawned st))
          else if negb notSend then
            (* send a response if we actually managed to read a header *)
            match sendResponse server ctx (Error_string e) cn with
            | Panics => Panics
            | Returns (server, cn) =>
                Returns (Continue, mkState server cn (spawned st))
            end
          else
            Returns (Continue, mkState (putContext server ctx) cn (spawned st))
      | None =>
          (* go server.call(sending, ctx) *)
          Returns (Continue, mkState server cn (spawned st ++ [ctx]))
      end
  end.

(** How [ServeConn] stands after some rounds. *)
Inductive served :=
  | Closed (st : state)      (* the loop was left and the connection closed *)
  | Serving (st : state)     (* the loop goes on *)
  | Crashed.

(** [conn.Close()] after the loop. *)
Definition close_conn (st : state) : state :=
  mkState (srv st)
    (mkConn (Close (codec (cn st))) (wire (cn st) ++ [EvClose]))
    (spawned st).

(** At most [rounds] rounds of [ServeConn]. *)
Fixpoint ServeConn (rounds : nat) (id : nat) (st : state) : served :=
  match rounds with
  | O => Serving st
  | S rounds' =>
      match ServeConn_round id st with
      | Panics => Crashed
      | Returns (Break, st) => Closed (close_conn st)
      | Returns (Continue, st) => ServeConn rounds' id st
      end
  end.

(** The oldest started task runs [Server.call]. *)
Definition run_task (st : state) : outcome state :=
  match spawned st with
  | [] => Returns st
  | ctx :: rest =>
      match call (srv st) ctx (cn st) with
      | Panics => Panics
      | Returns (server, cn) => Returns (mkState server cn rest)
      end
  end.

(** [Server.ServeRequest] (lines 380-401): one request, served
    synchronously. *)
Definition ServeRequest (id : nat) (server : Server) (cn : conn)
  : outcome (error * Server * conn) :=
  let '(ctx, server) := getContext server id in
  match readRequest server ctx cn with
  | Panics => Panics
  | Returns (keepReading, notSend, err, ctx, cn) =>
      match err with
      | Some e =>
          if negb keepReading then Returns (err, server, cn)
          else if negb notSend then
            match sendResponse server ctx (Error_string e) cn with
            | Panics => Panics
            | Returns (server, cn) => Returns (err, server, cn)
            end
          else Returns (err, putContext server ctx, cn)
      | None =>
          match call server ctx cn with
          | Panics => Panics
          | Returns (server, cn) => Returns (None, server, cn)
          end
      end
  end.

(** The error string that [writeResponse] puts on the wire for the
    kind [k] and the message [m] (lines 215-217). *)
Definition prefixed (k : ErrorType) (m : string) : string :=
  if 0 <? strlen m then Itoa k +:+ m else m.

(** The responses written on a connection, oldest first. *)
Definition written (w : list event) : list (Response * body) :=
  omap (fun e => match e with EvWrite r b => Some (r, b) | _ => None end) w.

(** The body reads made on the codec. *)
Definition body_reads (w : list event) : list (option rvalue) :=
  omap (fun e => match e with EvReadBody d => Some d | _ => None end) w.

(** The fields of a context that plugins and handlers cannot write. *)
Definition same_private (c c' : Context) : Prop :=
  req c' = req c /\ resp c' = resp c /\ service c' = service c
  /\ argv c' = argv c /\ replyv c' = replyv c
  /\ rpcErrorType c' = rpcErrorType c /\ codecConn c' = codecConn c.

(** *** The steps of reading a request, one by one *)

(** The error that [readRequestHeader] returns. *)
Definition header_error (server : Server) (ctx : Context) (cn : conn) : error :=
  (readRequestHeader server ctx cn).1.1.2.

(** [ctx.readRequestBody(nil)] (server.go, line 410), which discards
    the body of a request whose header stage failed, reports no failure
    of its own. *)
Definition discard_passes (server : Server) (ctx : Context) (cn : conn) : Prop :=
  let '(_, _, err, ctx, cn) := readRequestHeader server ctx cn in
  match err with
  | Some _ => (readRequestBody server ctx None cn).1.1.1 = None
  | None => True
  end.

(** The pointer that [readRequest] has the body decoded into (lines
    415-423) and the value that it stores in [ctx.argv] (lines 425-429),
    for a request to the service [svc]. *)
Definition arg_pointer (svc : Service) : rvalue :=
  match svc_argType svc with
  | Ptr elem => reflect_New elem
  | Named _ => reflect_New (svc_argType svc)
  end.

Definition arg_value (svc : Service) : rvalue :=
  match svc_argType svc with
  | Ptr _ => arg_pointer svc
  | Named _ => Elem (arg_pointer svc)
  end.

(** Modelled from the spec: the package [common] is not among the
    sources.  The error kinds of section 7 that a response can carry,
    each with the error of the step that failed (the path that was
    looked up, for NotFoundService). *)
Inductive failure :=
  | ServerInvalidServiceMethod (e : err)
  | ServerPostReadRequestHeader (e : err)
  | ServerNotFoundService (p : string)
  | ServerPreReadRequestBody (e : err)
  | ServerReadRequestBody (e : err)
  | ServerPostReadRequestBody (e : err)
  | ServerPreWriteResponse (e : err).

(** The code of each kind, as section 7 numbers them. *)
Definition kind_of (f : failure) : ErrorType :=
  match f with
  | ServerInvalidServiceMethod _ => 3
  | ServerPostReadRequestHeader _ => 4
  | ServerNotFoundService _ => 5
  | ServerPreReadRequestBody _ => 6
  | ServerReadRequestBody _ => 7
  | ServerPostReadRequestBody _ => 8
  | ServerPreWriteResponse _ => 9
  end.

(** The human-readable message of each failure: the message of the
    error of a hook or of the builder as it is, and the texts that
    [readRequestHeader] (line 154) and [readRequestBody] (line 175)
    build. *)
Definition message_of (f : failure) : string :=
  match f with
  | ServerInvalidServiceMethod e => Error_string e
  | ServerPostReadRequestHeader e => Error_string e
  | ServerNotFoundService p => "can't find service '" +:+ p +:+ "'"
  | ServerPreReadRequestBody e => Error_string e
  | ServerReadRequestBody e => "ReadRequestBody: " +:+ Error_string e
  | ServerPostReadRequestBody e => Error_string e
  | ServerPreWriteResponse e => Error_string e
  end.

(** The header of a request comes in on the context [ctx]: the
    [PreReadRequestHeader] hooks pass and leave the context [c1], and
    the codec, which goes to the state [c], returns the header [rq]. *)
Definition header_read (server : Server) (ctx : Context) (cn : conn)
  (c1 : Context) (c : C) (rq : Request) : Prop :=
  run_hook (doPreReadRequestHeader (PluginContainer_ server)) ctx = (c1, None)
  /\ ReadRequestHeader (codec cn) (req c1) = (c, rq, None).

(** The context once the service method of the header is parsed into
    the path [p] and the query [q]. *)
Definition parsed (c1 : Context) (rq : Request) (p : string) (q : Values)
  : Context :=
  with_query (with_path (with_req c1 rq) p) q.

(** The header is accepted: it comes in, its service method parses, and
    the [PostReadRequestHeader] hooks pass and leave the context [c3]. *)
Definition header_accepted (server : Server) (ctx : Context) (cn : conn)
  (c3 : Context) (c : C) (rq : Request) : Prop :=
  exists c1 p q,
    header_read server ctx cn c1 c rq
    /\ URIParse (ServiceBuilder_ server) (req_ServiceMethod rq) = (p, q, None)
    /\ run_hook (doPostReadRequestHeader (PluginContainer_ server))
         (parsed c1 rq p q) = (c3, None).

(** The context of a request that is routed to the service [svc]. *)
Definition routed (c3 : Context) (svc : Service) : Context :=
  with_argv (with_service c3 (Some svc)) (Some (arg_value svc)).

(** The [PostReadRequestBody] hooks (lines 179-184): the service's,
    then the server's. *)
Definition postReadRequestBody (server : Server) (svc : Service)
  (ctx : Context) (b : body) : Context * error :=
  let '(ctx, err) := run_hook (doPostReadRequestBody (svc_plugins svc) b) ctx in
  match err with
  | None => run_hook (doPostReadRequestBody (PluginContainer_ server) b) ctx
  | Some _ => (ctx, err)
  end.

(** [request_fails server ctx cn f]: the request that is read from the
    connection [cn] on the context [ctx] fails with [f], told by what
    the hooks, the codec, the builder and the registry return: every
    step before the one that [f] names passes, and that step returns
    the error that [f] carries. *)
Inductive request_fails (server : Server) (ctx : Context) (cn : conn)
  : failure -> Prop :=
  | fails_InvalidServiceMethod c1 c rq p q e :
      header_read server ctx cn c1 c rq ->
      URIParse (ServiceBuilder_ server) (req_ServiceMethod rq) = (p, q, Some e) ->
      request_fails server ctx cn (ServerInvalidServiceMethod e)
  | fails_PostReadRequestHeader c1 c rq p q c3 e :
      header_read server ctx cn c1 c rq ->
      URIParse (ServiceBuilder_ server) (req_ServiceMethod rq) = (p, q, None) ->
      run_hook (doPostReadRequestHeader (PluginContainer_ server))
        (parsed c1 rq p q) = (c3, Some e) ->
      request_fails server ctx cn (ServerPostReadRequestHeader e)
  | fails_NotFoundService c3 c rq :
      header_accepted server ctx cn c3 c rq ->
      serviceMap server !! path c3 = None ->
      request_fails server ctx cn (ServerNotFoundService (path c3))
  | fails_PreReadRequestBody c3 c rq svc c5 e :
      header_accepted server ctx cn c3 c rq ->
      serviceMap server !! path c3 = Some svc ->
      preReadRequestBody server (routed c3 svc) (BodyOf (arg_pointer svc))
      = (c5, Some e) ->
      request_fails server ctx cn (ServerPreReadRequestBody e)
  | fails_ReadRequestBody c3 c rq svc c5 c' content e :
      header_accepted server ctx cn c3 c rq ->
      serviceMap server !! path c3 = Some svc ->
      preReadRequestBody server (routed c3 svc) (BodyOf (arg_pointer svc))
      = (c5, None) ->
      ReadRequestBody c (Some (arg_pointer svc)) = (c', content, Some e) ->
      request_fails server ctx cn (ServerReadRequestBody e)
  | fails_PostReadRequestBody c3 c rq svc c5 c' content c6 e :
      header_accepted server ctx cn c3 c rq ->
      serviceMap server !! path c3 = Some svc ->
      preReadRequestBody server (routed c3 svc) (BodyOf (arg_pointer svc))
      = (c5, None) ->
      ReadRequestBody c (Some (arg_pointer svc)) = (c', content, None) ->
      postReadRequestBody server svc c5
        (BodyOf (mkValue (v_type (arg_pointer svc)) content))
      = (c6, Some e) ->
      request_fails server ctx cn (ServerPostReadRequestBody e).

End Pipeline.

Arguments conn : clear implicits.
Arguments state : clear implicits.
Arguments served : clear implicits.

(** *** A server to run: the Arith service behind a scripted codec *)
Module Arith.

(** A connection whose client has sent the frames [inbox], each a
    sequence number, a service method and the content of the body. *)
Record frames := mkFrames {
  current : option payload;
  inbox : list (Z * string * payload)
}.

#[global] Instance codec : ServerCodec frames :=
  {| ReadRequestHeader := fun c r =>
       match inbox c with
       | [] => (c, r, Some io_EOF)
       | (seq, sm, content) :: rest =>
           (mkFrames (Some content) rest, mkRequest sm seq, None)
       end;
     ReadRequestBody := fun c _ =>
       match current c with
       | Some content => (mkFrames None (inbox c), content, None)
       | None => (c, [], Some (Err "no body"))
       end;
     WriteResponse := fun c _ _ => (c, None);
     Close := fun c => c |}.

(** [Mul(args, *reply)] sets the reply to the product of the
    arguments. *)
Definition Mul : Service :=
  mkService "Arith" "/arith/mul" (Ptr (Named "Args")) (Ptr (Named "Reply"))
    (fun a r _ => (mkValue (v_type r) [fold_right Z.mul 1 (v_content a)], [], None))
    no_plugins.

(** [Div(args, *reply)] returns an error when the divisor is zero. *)
Definition Div : Service :=
  mkService "Arith" "/arith/div" (Ptr (Named "Args")) (Ptr (Named "Reply"))
    (fun a r _ =>
       match v_content a with
       | [x; y] =>
           if y =? 0 then (r, [], Some (Err "divide by zero"))
           else (mkValue (v_type r) [x / y], [], None)
       | _ => (r, [], Some (Err "bad arguments"))
       end)
    no_plugins.

(** A second receiver whose method takes the path of [Mul]. *)
Definition Mul' : Service :=
  mkService "Arith2" "/arith/mul" (Ptr (Named "Args")) (Ptr (Named "Reply"))
    (fun a r _ => (mkValue (v_type r) [0], [], None))
    no_plugins.

(** The builder: the two receivers and their services; the service
    method is its own path and carries no query. *)
Definition builder : ServiceBuilder :=
  mkBuilder
    (fun rcvr _ =>
       if String.eqb rcvr "Arith" then ([Mul; Div], None)
       else if String.eqb rcvr "Arith2" then ([Mul'], None)
       else ([], None))
    (fun sm => (sm, ∅, None)).

(** [NewServer(Server{})]. *)
Definition empty_server : Server := mkServer no_plugins builder ∅ [] [].

(** The server after [RegisterName("Arith", new(Arith))]. *)
Definition server : Server :=
  (register empty_server ["arith"] "Arith" no_plugins []).1.

Definition connect (inbox : list (Z * string * payload)) : conn frames :=
  mkConn (mkFrames None inbox) [].

(** A plugin container whose [PreReadRequestBody] hook refuses every
    body. *)
Definition refusing : PluginContainer :=
  mkPlugins no_hook no_hook (fun _ _ => ([], Some (Err "forbidden")))
    (fun _ => no_hook) (fun _ => no_hook) (fun _ => no_hook)
    (fun _ _ _ => None).

(** A plugin container whose [PostReadRequestHeader] hook fails with an
    error whose message is empty. *)
Definition silent : PluginContainer :=
  mkPlugins no_hook (fun _ => ([], Some (Err ""))) (fun _ => no_hook)
    (fun _ => no_hook) (fun _ => no_hook) (fun _ => no_hook)
    (fun _ _ _ => None).

(** A plugin container whose [PostReadRequestBody] hook rejects every
    body it is shown. *)
Definition rejecting : PluginContainer :=
  mkPlugins no_hook no_hook (fun _ => no_hook)
    (fun _ _ => ([], Some (Err "rejected")))
    (fun _ => no_hook) (fun _ => no_hook) (fun _ _ _ => None).

(** A plugin container whose [PreWriteResponse] hook lets no response
    through. *)
Definition vetoing : PluginContainer :=
  mkPlugins no_hook no_hook (fun _ => no_hook) (fun _ => no_hook)
    (fun _ _ => ([], Some (Err "vetoed"))) (fun _ => no_hook)
    (fun _ _ _ => None).

(** The context of a request to [Div] by zero, as [readRequest] leaves
    it on a context that has seen no failure. *)
Definition div_by_zero : Context :=
  mkContext (Some 0%nat) (mkRequest "/arith/div" 2) (mkResponse "" 0 "")
    (Some Div) (Some (mkValue (Ptr (Named "Args")) [1; 0]))
    (Some (mkValue (Ptr (Named "Reply")) [])) "/arith/div" ∅ (Some ∅) 0.

Definition with_plugins (s : Server) (p : PluginContainer) : Server :=
  mkServer p (ServiceBuilder_ s) (serviceMap s) (routers s) (contextPool s).

End Arith.

End Server.
(** * Proofs *)

(** ** The colfer codec: marshalling followed by unmarshalling *)

Module ColferProofs.
Import Go Colfer.

(** *** Bytes and bits *)

Lemma Z_of_byte_range b : 0 <= Z_of_byte b < 256.
Proof.
  unfold Z_of_byte. pose proof (Byte.to_N_bounded b). lia.
Qed.

Lemma Z_of_byte_of_Z x : Z_of_byte (byte_of_Z x) = x mod 256.
Proof.
  unfold Z_of_byte, byte_of_Z.
  assert (Hr : 0 <= x mod 256 < 256) by (apply Z.mod_pos_bound; lia).
  destruct (Byte.of_N (Z.to_N (x mod 256))) as [b|] eqn:E.
  - apply Byte.to_of_N in E. rewrite E. lia.
  - apply Byte.of_N_None_iff in E. lia.
Qed.

Lemma byte_of_Z_of_byte b : byte_of_Z (Z_of_byte b) = b.
Proof.
  unfold byte_of_Z. pose proof (Z_of_byte_range b) as Hr.
  rewrite Z.mod_small by lia. unfold Z_of_byte. rewrite N2Z.id.
  now rewrite Byte.of_to_N.
Qed.

(** Or-ing a value below [2^s] with one shifted by [s] adds them. *)
Lemma lor_shiftl_disjoint acc v s :
  0 <= s -> 0 <= acc < 2 ^ s -> Z.lor acc (Z.shiftl v s) = acc + v * 2 ^ s.
Proof.
  intros Hs Hacc.
  rewrite <- Z.shiftl_mul_pow2 by lia.
  rewrite <- Z.lxor_lor, <- Z.add_nocarry_lxor; try reflexivity.
  all: apply Z.bits_inj'; intros n Hn; rewrite Z.land_spec, Z.bits_0;
    destruct (Z.lt_ge_cases n s);
    [ rewrite (Z.shiftl_spec_low v s n) by lia; apply andb_false_r
    | rewrite <- (Z.mod_small acc (2 ^ s)) by lia;
      rewrite Z.mod_pow2_bits_high by lia; reflexivity ].
Qed.

(** The low byte of [x | 0x80] is the continuation bit on top of the
    low seven bits of [x]. *)
Lemma lor_0x80_byte x : Z.lor x 0x80 mod 256 = 0x80 + x mod 0x80.
Proof.
  change 0x80 with (2 ^ 7). change 256 with (2 ^ 8).
  assert (Hd : Z.land (x mod 2 ^ 7) (2 ^ 7) = 0).
  { apply Z.bits_inj'; intros n Hn. rewrite Z.land_spec, Z.bits_0.
    destruct (Z.lt_ge_cases n 7).
    - rewrite Z.pow2_bits_false by lia. apply andb_false_r.
    - rewrite Z.mod_pow2_bits_high by lia. reflexivity. }
  rewrite (Z.add_comm (2 ^ 7)), Z.add_nocarry_lxor, Z.lxor_lor by exact Hd.
  apply Z.bits_inj'; intros n Hn.
  destruct (Z.lt_ge_cases n 8).
  - rewrite Z.mod_pow2_bits_low by lia. rewrite !Z.lor_spec.
    destruct (Z.lt_ge_cases n 7).
    + rewrite Z.mod_pow2_bits_low by lia. reflexivity.
    + assert (n = 7) by lia; subst n. rewrite Z.pow2_bits_true by lia.
      now rewrite !orb_true_r.
  - rewrite Z.mod_pow2_bits_high by lia. rewrite Z.lor_spec.
    rewrite Z.mod_pow2_bits_high by lia. rewrite Z.pow2_bits_false by lia.
    reflexivity.
Qed.

Lemma land_0x7f x : Z.land x 0x7f = x mod 0x80.
Proof. change 0x7f with (Z.ones 7). rewrite Z.land_ones by lia. reflexivity. Qed.

(** *** Writing into the buffer

    The buffer is seen as [w ++ junk ++ r]: [w] is what has been written,
    [junk] the bytes that the next field overwrites. *)

Lemma len_app {A} (l k : list A) : len (l ++ k) = len l + len k.
Proof. unfold len. rewrite length_app. lia. Qed.

Lemma len_cons {A} (a : A) (l : list A) : len (a :: l) = 1 + len l.
Proof. unfold len. simpl length. lia. Qed.

Lemma len_nonneg {A} (l : list A) : 0 <= len l.
Proof. unfold len. lia. Qed.

Ltac len_norm := rewrite ?len_app, ?len_cons; unfold len; simpl length.
Ltac res_eq :=
  repeat match goal with
  | |- Some _ = Some _ => f_equal
  | |- (_, _) = (_, _) => f_equal
  | |- @eq Z _ _ => len_norm; lia
  | |- _ => reflexivity
  end.

(** A store just after the written part. *)
Lemma store_app {A} (w r : list A) (b0 v : A) :
  store (w ++ b0 :: r) (len w) v = Some (w ++ v :: r).
Proof.
  unfold store, len. rewrite length_app. simpl length.
  replace ((0 <=? Z.of_nat (length w)) && (Z.of_nat (length w) <? Z.of_nat (length w + S (length r)))) with true
    by (symmetry; apply andb_true_iff; split; [apply Z.leb_le | apply Z.ltb_lt]; lia).
  rewrite Nat2Z.id. f_equal.
  rewrite insert_app_r_alt by lia. rewrite Nat.sub_diag. reflexivity.
Qed.

Lemma store_app' {A} (w r : list A) (b0 v : A) i :
  i = len w -> store (w ++ b0 :: r) i v = Some ((w ++ [v]) ++ r).
Proof. intros ->. rewrite store_app, <- app_assoc. reflexivity. Qed.

Lemma copy_at_app {A} (w junk r src : list A) :
  length junk = length src ->
  copy_at (w ++ junk ++ r) (len w) src = Some (w ++ src ++ r).
Proof.
  intros Hl. unfold copy_at, len. rewrite !length_app.
  replace ((0 <=? Z.of_nat (length w)) && (Z.of_nat (length w) <=? Z.of_nat (length w + (length junk + length r)))) with true
    by (symmetry; apply andb_true_iff; split; apply Z.leb_le; lia).
  rewrite Nat2Z.id. f_equal.
  rewrite take_app_length. f_equal.
  rewrite take_ge by lia. f_equal.
  rewrite drop_app_ge by lia. rewrite drop_app_ge by lia.
  replace (length w + length src - length w - length junk)%nat with 0%nat by lia.
  reflexivity.
Qed.

(** The in-place varint loop writes [enc_varint_loop]. *)
Lemma put_varint_loop_spec rounds : forall x w junk r bs x',
  enc_varint_loop rounds x = (bs, x') ->
  length junk = length bs ->
  put_varint_loop rounds (w ++ junk ++ r) (len w) x
  = Some (w ++ bs ++ r, len w + len bs, x').
Proof.
  induction rounds as [|n IH]; intros x w junk r bs x' He Hl; simpl in *.
  - inversion He; subst. destruct junk; [|discriminate].
    simpl. unfold len at 2. simpl. rewrite Z.add_0_r. reflexivity.
  - destruct (0x80 <=? x).
    + destruct (enc_varint_loop n (Z.shiftr x 7)) as [bs0 x0] eqn:E.
      inversion He; subst. destruct junk as [|j junk]; [discriminate|].
      simpl in Hl. injection Hl as Hl.
      simpl app. rewrite store_app'; [|reflexivity]. simpl.
      replace (len w + 1) with (len (w ++ [byte_of_Z (Z.lor x 128)]))
        by (rewrite len_app; reflexivity).
      rewrite (IH _ _ _ _ _ _ E Hl).
      rewrite <- app_assoc. simpl. rewrite len_app, len_cons.
      res_eq.
    + inversion He; subst. destruct junk; [|discriminate].
      simpl. unfold len at 2. simpl. rewrite Z.add_0_r. reflexivity.
Qed.

Lemma put_varint_spec x w junk r :
  length junk = length (enc_varint x) ->
  put_varint (w ++ junk ++ r) (len w) x
  = Some (w ++ enc_varint x ++ r, len w + len (enc_varint x)).
Proof.
  unfold enc_varint, put_varint.
  destruct (enc_varint_loop varint_rounds x) as [bs x'] eqn:E.
  rewrite length_app. simpl length. intros Hl.
  assert (Hj : junk = take (length bs) junk ++ drop (length bs) junk)
    by (symmetry; apply take_drop).
  destruct (drop (length bs) junk) as [|j0 [|? ?]] eqn:Ed;
    try (apply (f_equal length) in Ed; rewrite length_drop in Ed; simpl in Ed; lia).
  rewrite Hj, <- app_assoc.
  rewrite (put_varint_loop_spec _ _ _ _ _ _ _ E)
    by (rewrite length_take; lia).
  simpl. rewrite app_assoc.
  rewrite store_app' by (rewrite len_app; reflexivity). simpl.
  rewrite <- !app_assoc. rewrite len_app. simpl.
  res_eq.
Qed.

(** *** [MarshalTo] and [MarshalLen] against the serial form *)

Lemma length_bytes_of_string s : length (bytes_of_string s) = String.length s.
Proof.
  unfold bytes_of_string, list_byte_of_string.
  rewrite length_map. induction s; simpl; congruence.
Qed.

Lemma len_bytes_of_string s : len (bytes_of_string s) = strlen s.
Proof. unfold len, strlen. now rewrite length_bytes_of_string. Qed.

Lemma split_junk {A} (junk : list A) n m :
  length junk = (n + m)%nat ->
  exists j1 j2, junk = j1 ++ j2 /\ length j1 = n /\ length j2 = m.
Proof.
  intros H. exists (take n junk), (drop n junk).
  rewrite take_drop, length_take, length_drop. repeat split; lia.
Qed.

Lemma put_text_spec tag s w junk r :
  length junk = length (enc_text tag s) ->
  put_text tag s (w ++ junk ++ r) (len w)
  = Some (w ++ enc_text tag s ++ r, len w + len (enc_text tag s)).
Proof.
  unfold put_text, enc_text. destruct (strlen s =? 0) eqn:E0.
  - destruct junk; [|discriminate]. intros _. simpl. res_eq.
  - destruct junk as [|j junk]; [discriminate|]. simpl length.
    rewrite length_app, length_bytes_of_string. intros Hl.
    injection Hl as Hl.
    destruct (split_junk _ _ _ Hl) as (j1 & j2 & -> & H1 & H2).
    simpl app. rewrite store_app' by reflexivity. simpl.
    rewrite <- (app_assoc j1 j2 r). replace (len w + 1) with (len (w ++ [byte_of_Z tag])) by res_eq.  rewrite put_varint_spec by exact H1. simpl.


    rewrite app_assoc.
    replace (len (w ++ [byte_of_Z tag]) + len (enc_varint (strlen s)))
      with (len ((w ++ [byte_of_Z tag]) ++ enc_varint (strlen s))) by res_eq.
    rewrite copy_at_app by (rewrite length_bytes_of_string; exact H2).
    simpl. rewrite <- !app_assoc. simpl.
    f_equal. f_equal. rewrite !len_app, !len_cons, !len_app, len_bytes_of_string. lia.
Qed.

Lemma put_seq_spec x w junk r :
  length junk = length (enc_seq x) ->
  put_seq x (w ++ junk ++ r) (len w)
  = Some (w ++ enc_seq x ++ r, len w + len (enc_seq x)).
Proof.
  unfold put_seq, enc_seq. destruct (2 ^ 49 <=? x).
  - unfold enc_fixed64. simpl length. intros Hl.
    do 9 (destruct junk as [|? junk]; [discriminate|]).
    destruct junk; [|discriminate]. clear Hl.
    simpl app.
    rewrite store_app' by reflexivity. simpl.
    do 8 (rewrite store_app' by res_eq; simpl).
    rewrite <- !app_assoc. simpl. res_eq.
  - destruct (x =? 0); simpl negb; cbv iota.
    + destruct junk; [|discriminate]. intros _. simpl. res_eq.
    + destruct junk as [|j junk]; [discriminate|]. simpl length.
      intros Hl. injection Hl as Hl.
      simpl app. rewrite store_app' by reflexivity. simpl.
      replace (len w + 1) with (len (w ++ [byte_of_Z 0])) by res_eq.
      rewrite put_varint_spec by exact Hl.
      rewrite <- !app_assoc. simpl. res_eq.
Qed.

(** On a buffer of the right size, [MarshalTo] writes [encode o] and
    returns its length. *)
Lemma MarshalTo_spec o junk :
  length junk = length (encode o) ->
  MarshalTo o junk = Some (encode o, len (encode o)).
Proof.
  unfold MarshalTo, encode. rewrite !length_app. simpl length. intros Hl.
  destruct (split_junk _ _ _ Hl) as (j1 & j' & -> & H1 & Hl').
  destruct (split_junk _ _ _ Hl') as (j2 & j'' & -> & H2 & Hl'').
  destruct (split_junk _ _ _ Hl'') as (j3 & j4 & -> & H3 & H4).
  destruct j4 as [|j4 [|? ?]]; try discriminate.
  change (put_seq (SeqID o) (j1 ++ j2 ++ j3 ++ [j4]) 0)
    with (put_seq (SeqID o) ([] ++ j1 ++ j2 ++ j3 ++ [j4]) (len (@nil byte))).
  rewrite put_seq_spec by exact H1. simpl.
  replace (len [] + len (enc_seq (SeqID o))) with (len (enc_seq (SeqID o)))
    by res_eq.
  rewrite put_text_spec by exact H2. simpl.
  rewrite app_assoc.
  replace (len (enc_seq (SeqID o)) + len (enc_text 1 (Method o)))
    with (len (enc_seq (SeqID o) ++ enc_text 1 (Method o))) by res_eq.
  rewrite put_text_spec by exact H3. simpl.
  rewrite app_assoc.
  rewrite store_app' by res_eq. simpl.
  rewrite <- !app_assoc. simpl. res_eq.
Qed.

Lemma len_varint_loop_spec rounds : forall x l,
  len_varint_loop rounds x l = l + len (fst (enc_varint_loop rounds x)).
Proof.
  induction rounds as [|n IH]; intros x l; simpl.
  - res_eq.
  - destruct (0x80 <=? x); [|simpl; res_eq].
    rewrite IH. destruct (enc_varint_loop n (Z.shiftr x 7)). simpl. res_eq.
Qed.

Lemma len_enc_varint x :
  len (enc_varint x) = len (fst (enc_varint_loop varint_rounds x)) + 1.
Proof.
  unfold enc_varint. destruct (enc_varint_loop varint_rounds x). simpl. res_eq.
Qed.

Lemma len_text_spec s l : len_text s l = l + len (enc_text 1 s).
Proof.
  unfold len_text, enc_text. destruct (strlen s =? 0); [res_eq|].
  rewrite len_varint_loop_spec, len_cons, len_app, len_enc_varint.
  rewrite len_bytes_of_string. lia.
Qed.

Lemma len_enc_text tag s : len (enc_text tag s) = len (enc_text 1 s).
Proof. unfold enc_text. destruct (strlen s =? 0); res_eq. Qed.

Lemma len_seq_spec x l : len_seq x l = l + len (enc_seq x).
Proof.
  unfold len_seq, enc_seq. destruct (2 ^ 49 <=? x); [res_eq|].
  destruct (x =? 0); simpl negb; cbv iota; [res_eq|].
  rewrite len_varint_loop_spec, len_cons, len_enc_varint. lia.
Qed.

(** [MarshalLen] is the length of the serial form. *)
Lemma MarshalLen_encode o : fst (MarshalLen o) = len (encode o).
Proof.
  unfold MarshalLen, encode.
  rewrite !len_text_spec, len_seq_spec.
  match goal with |- context [if ?c then _ else _] => destruct c end; simpl;
  rewrite !len_app, (len_enc_text 2); res_eq.
Qed.

(** [MarshalBinary] does not run out of buffer. *)
Lemma MarshalBinary_encode o :
  snd (MarshalLen o) = None -> MarshalBinary o = Returns (encode o, None).
Proof.
  intros Hn. unfold MarshalBinary.
  pose proof (MarshalLen_encode o) as Hl.
  destruct (MarshalLen o) as [l [e|]]; [discriminate|]. simpl in Hl. subst l.
  rewrite MarshalTo_spec; [reflexivity|].
  rewrite length_replicate. unfold len. apply Nat2Z.id.
Qed.

(** *** Decoding varints *)

Lemma shiftr7_bound x n : 0 <= n -> 0 <= x < 2 ^ (n + 7) -> 0 <= Z.shiftr x 7 < 2 ^ n.
Proof.
  intros Hn [H0 H1]. rewrite Z.shiftr_div_pow2 by lia. split.
  - apply Z.div_pos; lia.
  - apply Z.div_lt_upper_bound; [lia|]. rewrite <- Z.pow_add_r by lia.
    now rewrite Z.add_comm.
Qed.

(** One continuation byte: it is at least 0x80 and carries x mod 0x80. *)
Lemma cont_byte x :
  let b := Z_of_byte (byte_of_Z (Z.lor x 0x80)) in
  (b <? 0x80) = false /\ Z.land b 0x7f = x mod 0x80.
Proof.
  cbv zeta. rewrite Z_of_byte_of_Z, lor_0x80_byte.
  assert (0 <= x mod 0x80 < 0x80) by (apply Z.mod_pos_bound; lia). split.
  - apply Z.ltb_ge. lia.
  - rewrite land_0x7f. rewrite <- Zplus_mod_idemp_l. rewrite Z.mod_same by lia. simpl.
    apply Z.mod_mod. lia.
Qed.

Lemma last_byte x : 0 <= x < 0x80 -> Z_of_byte (byte_of_Z x) = x.
Proof. intros. rewrite Z_of_byte_of_Z. apply Z.mod_small. lia. Qed.

(** One round of a decoding loop: the accumulator takes seven more
    bits. *)
Lemma varint_acc_step x shift acc :
  0 <= x -> 0 <= shift -> 0 <= acc < 2 ^ shift ->
  let acc' := acc + x mod 0x80 * 2 ^ shift in
  0 <= acc' < 2 ^ (shift + 7) /\
  acc' + Z.shiftr x 7 * 2 ^ (shift + 7) = acc + x * 2 ^ shift.
Proof.
  intros Hx Hs Hacc. cbv zeta.
  assert (Hm : 0 <= x mod 0x80 < 0x80) by (apply Z.mod_pos_bound; lia).
  rewrite Z.shiftr_div_pow2 by lia. rewrite Z.pow_add_r by lia.
  change (2 ^ 7) with 0x80.
  pose proof (Z.div_mod x 0x80 ltac:(lia)) as Hdm.
  assert (0 < 2 ^ shift) by (apply Z.pow_pos_nonneg; lia).
  split; [nia|].
  rewrite Hdm at 3. ring.
Qed.

(** No wrap-around happens while the decoded value fits the width. *)
Lemma lor_wrap W acc v s :
  0 <= s -> 0 <= acc < 2 ^ s -> 0 <= v -> acc + v * 2 ^ s < 2 ^ W ->
  Z.lor acc (Z.shiftl v s mod 2 ^ W) = acc + v * 2 ^ s.
Proof.
  intros Hs Hacc Hv Hb.
  assert (0 < 2 ^ s) by (apply Z.pow_pos_nonneg; lia).
  rewrite Z.mod_small.
  - apply lor_shiftl_disjoint; lia.
  - rewrite Z.shiftl_mul_pow2 by lia. split; [|lia].
    apply Z.mul_nonneg_nonneg; lia.
Qed.

(** The 32-bit loop decodes what the encoding loop wrote, from any
    shift and accumulator. *)
Lemma get_varint32_spec rounds : forall x bs x' tail i shift acc,
  0 <= x < 2 ^ (7 * Z.of_nat rounds + 7) ->
  enc_varint_loop rounds x = (bs, x') ->
  0 <= shift -> 0 <= acc < 2 ^ shift ->
  acc + x * 2 ^ shift < 2 ^ 32 ->
  get_varint32 (bs ++ byte_of_Z x' :: tail) i shift acc
  = Some (acc + x * 2 ^ shift, i + len bs + 1, tail).
Proof.
  assert (Hlast : forall x tail i shift acc,
    0 <= x < 0x80 -> 0 <= shift -> 0 <= acc < 2 ^ shift ->
    acc + x * 2 ^ shift < 2 ^ 32 ->
    get_varint32 (byte_of_Z x :: tail) i shift acc
    = Some (acc + x * 2 ^ shift, i + len (@nil byte) + 1, tail)).
  { intros x tail i shift acc Hx Hs Hacc Hb. simpl.
    rewrite last_byte by lia.
    replace (x <? 0x80) with true by (symmetry; apply Z.ltb_lt; lia).
    unfold wrap32. rewrite lor_wrap by lia. res_eq. }
  induction rounds as [|n IH]; intros x bs x' tail i shift acc Hx He Hs Hacc Hb.
  - simpl in He. inversion He; subst. apply Hlast; try lia.
  - simpl in He. destruct (0x80 <=? x) eqn:E.
    + destruct (enc_varint_loop n (Z.shiftr x 7)) as [bs0 x0] eqn:E0.
      inversion He; subst. simpl.
      destruct (cont_byte x) as [Hc1 Hc2]. rewrite Hc1, Hc2.
      destruct (varint_acc_step x shift acc ltac:(lia) Hs Hacc) as [Ha1 Ha2].
      assert (Hm : 0 <= x mod 0x80 < 0x80) by (apply Z.mod_pos_bound; lia).
      assert (0 < 2 ^ shift) by (apply Z.pow_pos_nonneg; lia).
      assert (Hx7 : 0 <= Z.shiftr x 7 < 2 ^ (7 * Z.of_nat n + 7)).
      { apply shiftr7_bound; [lia|].
        replace (7 * Z.of_nat n + 7 + 7) with (7 * Z.of_nat (S n) + 7) by lia.
        exact Hx. }
      unfold wrap32. rewrite lor_wrap by nia.
      rewrite (IH _ _ _ tail (i + 1) (shift + 7) _ Hx7 E0) by lia.
      rewrite Ha2. res_eq.
    + inversion He; subst. apply Hlast; try lia.
Qed.

(** The same for the 64-bit loop; below [2^56] the test [shift == 56]
    is never what ends it. *)
Lemma get_varint64_spec rounds : forall x bs x' tail i shift acc,
  0 <= x < 2 ^ (7 * Z.of_nat rounds + 7) ->
  enc_varint_loop rounds x = (bs, x') ->
  0 <= shift -> 0 <= acc < 2 ^ shift ->
  acc + x * 2 ^ shift < 2 ^ 56 ->
  get_varint64 (bs ++ byte_of_Z x' :: tail) i shift acc
  = Some (acc + x * 2 ^ shift, i + len bs + 1, tail).
Proof.
  assert (Hlast : forall x tail i shift acc,
    0 <= x < 0x80 -> 0 <= shift -> 0 <= acc < 2 ^ shift ->
    acc + x * 2 ^ shift < 2 ^ 56 ->
    get_varint64 (byte_of_Z x :: tail) i shift acc
    = Some (acc + x * 2 ^ shift, i + len (@nil byte) + 1, tail)).
  { intros x tail i shift acc Hx Hs Hacc Hb. simpl.
    rewrite last_byte by lia.
    replace (x <? 0x80) with true by (symmetry; apply Z.ltb_lt; lia).
    rewrite orb_true_r.
    unfold wrap64. rewrite lor_wrap by lia. res_eq. }
  induction rounds as [|n IH]; intros x bs x' tail i shift acc Hx He Hs Hacc Hb.
  - simpl in He. inversion He; subst. apply Hlast; try lia.
  - simpl in He. destruct (0x80 <=? x) eqn:E.
    + destruct (enc_varint_loop n (Z.shiftr x 7)) as [bs0 x0] eqn:E0.
      inversion He; subst. simpl.
      destruct (cont_byte x) as [Hc1 Hc2]. rewrite Hc1, Hc2.
      destruct (varint_acc_step x shift acc ltac:(lia) Hs Hacc) as [Ha1 Ha2].
      assert (Hm : 0 <= x mod 0x80 < 0x80) by (apply Z.mod_pos_bound; lia).
      assert (0 < 2 ^ shift) by (apply Z.pow_pos_nonneg; lia).
      assert (Hx7 : 0 <= Z.shiftr x 7 < 2 ^ (7 * Z.of_nat n + 7)).
      { apply shiftr7_bound; [lia|].
        replace (7 * Z.of_nat n + 7 + 7) with (7 * Z.of_nat (S n) + 7) by lia.
        exact Hx. }
      assert (Hsh : shift < 49).
      { apply Z.leb_le in E.
        assert (2 ^ (shift + 7) < 2 ^ 56).
        { rewrite Z.pow_add_r by lia. change (2 ^ 7) with 0x80. nia. }
        apply Z.pow_lt_mono_r_iff in H0; lia. }
      replace (shift =? 56) with false by (symmetry; apply Z.eqb_neq; lia).
      simpl orb. cbv iota.
      unfold wrap64. rewrite lor_wrap by nia.
      rewrite (IH _ _ _ tail (i + 1) (shift + 7) _ Hx7 E0) by lia.
      rewrite Ha2. res_eq.
    + inversion He; subst. apply Hlast; try lia.
Qed.

Lemma varint_rounds_enough x : 0 <= x < 2 ^ 64 ->
  0 <= x < 2 ^ (7 * Z.of_nat varint_rounds + 7).
Proof.
  intros [H0 H1]. split; [exact H0|].
  eapply Z.lt_le_trans; [exact H1|]. apply Z.pow_le_mono_r; unfold varint_rounds; lia.
Qed.

Lemma get_varint32_enc x tail i :
  0 <= x < 2 ^ 32 ->
  get_varint32 (enc_varint x ++ tail) i 0 0 = Some (x, i + len (enc_varint x), tail).
Proof.
  intros Hx. unfold enc_varint.
  destruct (enc_varint_loop varint_rounds x) as [bs x'] eqn:E.
  rewrite <- app_assoc. simpl app.
  rewrite (get_varint32_spec _ _ _ _ _ _ _ _ (varint_rounds_enough x ltac:(lia)) E);
    try (simpl; lia).
  rewrite len_app. res_eq.
Qed.

Lemma get_varint64_enc x tail i :
  0 <= x < 2 ^ 49 ->
  get_varint64 (enc_varint x ++ tail) i 0 0 = Some (x, i + len (enc_varint x), tail).
Proof.
  intros Hx. unfold enc_varint.
  destruct (enc_varint_loop varint_rounds x) as [bs x'] eqn:E.
  rewrite <- app_assoc. simpl app.
  rewrite (get_varint64_spec _ _ _ _ _ _ _ _ (varint_rounds_enough x ltac:(lia)) E);
    try (simpl; lia).
  rewrite len_app. res_eq.
Qed.

(** Fixed-width field: the eight bytes rebuild the value. *)
Lemma fixed64_step x k : 0 <= k ->
  Z.lor (Z.shiftl (Z.shiftr x (k + 8)) (k + 8))
        (Z.shiftl (Z.shiftr x k mod 256) k)
  = Z.shiftl (Z.shiftr x k) k.
Proof.
  intros Hk. change 256 with (2 ^ 8).
  apply Z.bits_inj'; intros n Hn. rewrite Z.lor_spec.
  destruct (Z.lt_ge_cases n k).
  - rewrite !Z.shiftl_spec_low by lia. reflexivity.
  - rewrite !Z.shiftl_spec by lia.
    destruct (Z.lt_ge_cases n (k + 8)).
    + rewrite (Z.testbit_neg_r _ (n - (k + 8))) by lia.
      rewrite Z.mod_pow2_bits_low by lia. reflexivity.
    + rewrite Z.mod_pow2_bits_high by lia. rewrite orb_false_r.
      rewrite !Z.shiftr_spec by lia. f_equal. lia.
Qed.

Lemma fixed64_roundtrip x : 0 <= x < 2 ^ 64 ->
  let v k y := wrap64 (Z.shiftl (Z_of_byte (byte_of_Z (Z.shiftr x y))) k) in
  Z.lor (Z.lor (Z.lor (Z.lor (Z.lor (Z.lor (Z.lor
    (v 56 56) (v 48 48)) (v 40 40)) (v 32 32)) (v 24 24))
    (v 16 16)) (v 8 8)) (Z_of_byte (byte_of_Z x)) = x.
Proof.
  intros Hx. cbv zeta. rewrite !Z_of_byte_of_Z.
  assert (Hw : forall k, 0 <= k <= 56 ->
    wrap64 (Z.shiftl (Z.shiftr x k mod 256) k) = Z.shiftl (Z.shiftr x k mod 256) k).
  { intros k Hk. unfold wrap64. apply Z.mod_small.
    rewrite Z.shiftl_mul_pow2 by lia.
    assert (0 <= Z.shiftr x k mod 256 < 256) by (apply Z.mod_pos_bound; lia).
    assert (0 < 2 ^ k) by (apply Z.pow_pos_nonneg; lia).
    assert (2 ^ k <= 2 ^ 56) by (apply Z.pow_le_mono_r; lia).
    split; [nia|]. change (2 ^ 64) with (256 * 2 ^ 56). nia. }
  rewrite !Hw by lia.
  assert (H56 : Z.shiftl (Z.shiftr x 56 mod 256) 56 = Z.shiftl (Z.shiftr x 56) 56).
  { f_equal. rewrite Z.shiftr_div_pow2 by lia. apply Z.mod_small.
    split; [apply Z.div_pos; lia|]. apply Z.div_lt_upper_bound; simpl; lia. }
  rewrite H56.
  change 56 with (48 + 8) at 1 2. rewrite fixed64_step by lia.
  change 48 with (40 + 8) at 1 2. rewrite fixed64_step by lia.
  change 40 with (32 + 8) at 1 2. rewrite fixed64_step by lia.
  change 32 with (24 + 8) at 1 2. rewrite fixed64_step by lia.
  change 24 with (16 + 8) at 1 2. rewrite fixed64_step by lia.
  change 16 with (8 + 8) at 1 2. rewrite fixed64_step by lia.
  replace (x mod 256) with (Z.shiftl (Z.shiftr x 0 mod 256) 0)
    by (now rewrite Z.shiftl_0_r, Z.shiftr_0_r).
  change 8 with (0 + 8) at 1 2. rewrite fixed64_step by lia.
  now rewrite Z.shiftl_0_r, Z.shiftr_0_r.
Qed.

(** *** Decoding fields *)

Lemma string_of_bytes_of_string s : string_of_bytes (bytes_of_string s) = s.
Proof. apply string_of_list_byte_of_string. Qed.

Lemma strlen_0 s : strlen s = 0 -> s = "".
Proof. destruct s; [reflexivity|]. unfold strlen. simpl. lia. Qed.

(** A text field followed by the header byte [h0] of what comes
    next. *)
Lemma get_text_spec tag set o s h0 tl i f rest :
  0 <= tag < 0x80 ->
  Z_of_byte h0 <> tag ->
  strlen s < 2 ^ 32 ->
  enc_text tag s ++ h0 :: tl = f :: rest ->
  get_text tag set (mkD o (Z_of_byte f) i rest)
  = inr (mkD (if strlen s =? 0 then o else set o s) (Z_of_byte h0)
             (i + len (enc_text tag s)) tl).
Proof.
  intros Htag Hh0 Hs. unfold enc_text, get_text.
  destruct (strlen s =? 0) eqn:E0; simpl app; intros Heq; inversion Heq; subst.
  - replace (Z_of_byte f =? tag) with false by (symmetry; apply Z.eqb_neq; exact Hh0).
    f_equal. f_equal. res_eq.
  - rewrite last_byte by lia. rewrite Z.eqb_refl.
    assert (0 <= strlen s) by (unfold strlen; lia).
    rewrite <- app_assoc. rewrite get_varint32_enc by lia.
    rewrite len_app, len_bytes_of_string, len_cons.
    replace (strlen s + (1 + len tl) <=? strlen s) with false
      by (symmetry; apply Z.leb_gt; pose proof (len_nonneg tl); lia).
    replace (Z.to_nat (strlen s)) with (length (bytes_of_string s))
      by (rewrite length_bytes_of_string; unfold strlen; symmetry; apply Nat2Z.id).
    rewrite take_app_length, drop_app_length, string_of_bytes_of_string.
    f_equal. f_equal. rewrite len_cons, len_app, len_bytes_of_string. lia.
Qed.

(** The [SeqID] field, in either of its two forms or absent. *)
Lemma get_seq_spec o x h0 tl f rest :
  is_uint64 x ->
  Z_of_byte h0 <> 0 -> Z_of_byte h0 <> 0x80 ->
  enc_seq x ++ h0 :: tl = f :: rest ->
  get_seq (mkD o (Z_of_byte f) 1 rest)
  = inr (mkD (if x =? 0 then o else set_SeqID o x) (Z_of_byte h0)
             (1 + len (enc_seq x)) tl).
Proof.
  intros Hx Hh0 Hh0'. unfold enc_seq, get_seq, is_uint64 in *.
  destruct (2 ^ 49 <=? x) eqn:E49.
  - unfold enc_fixed64. simpl app. intros Heq; inversion Heq; subst.
    replace (x =? 0) with false by (symmetry; apply Z.eqb_neq; lia).
    change (Z_of_byte (byte_of_Z (Z.lor 0 128)) =? 0) with false.
    change (Z_of_byte (byte_of_Z (Z.lor 0 128)) =? Z.lor 0 128) with true.
    cbv iota. rewrite (fixed64_roundtrip x Hx). reflexivity.
  - destruct (x =? 0) eqn:E0; simpl negb; cbv iota; simpl app;
      intros Heq; inversion Heq; subst.
    + replace (Z_of_byte f =? 0) with false by (symmetry; apply Z.eqb_neq; exact Hh0).
      replace (Z_of_byte f =? Z.lor 0 128) with false
        by (symmetry; apply Z.eqb_neq; exact Hh0').
      reflexivity.
    + change (Z_of_byte (byte_of_Z 0) =? 0) with true. cbv iota.
      rewrite get_varint64_enc by lia.
      f_equal. f_equal. rewrite len_cons. lia.
Qed.



Lemma later_tag_end min : min < 0x7f -> later_tag min [byte_of_Z 0x7f].
Proof. intros. exists (byte_of_Z 0x7f), []. split; [reflexivity|]. rewrite last_byte; lia. Qed.

Lemma later_tag_text min tag s l :
  0 <= min < tag -> tag < 0x80 -> later_tag tag l ->
  later_tag min (enc_text tag s ++ l).
Proof.
  intros Ht Ht' (h & tl & -> & Hh). unfold enc_text.
  destruct (strlen s =? 0).
  - exists h, tl. split; [reflexivity|lia].
  - eexists _, _. split; [reflexivity|]. rewrite last_byte; lia.
Qed.

(** [Unmarshal_body] reads back the serial form of [o]. *)
Lemma roundtrip_body o :
  is_uint64 (SeqID o) -> strlen (Method o) < 2 ^ 32 -> strlen (Error o) < 2 ^ 32 ->
  Unmarshal_body zeroHeader (encode o) = (o, len (encode o), None).
Proof.
  intros Hx Hm He.
  assert (Hlen : len (encode o) = 1 + len (enc_seq (SeqID o))
            + len (enc_text 1 (Method o)) + len (enc_text 2 (Error o))).
  { unfold encode. rewrite !len_app. res_eq. }
  rewrite Hlen. clear Hlen. unfold encode.
  assert (L2 : later_tag 2 [byte_of_Z 0x7f]) by (apply later_tag_end; lia).
  assert (L1 : later_tag 1 (enc_text 2 (Error o) ++ [byte_of_Z 0x7f]))
    by (apply later_tag_text; [lia|lia|exact L2]).
  assert (L0 : later_tag 0 (enc_text 1 (Method o) ++ enc_text 2 (Error o) ++ [byte_of_Z 0x7f]))
    by (apply later_tag_text; [lia|lia|exact L1]).
  destruct L1 as (h1 & tl1 & E1 & Hh1). rewrite E1 in L0 |- *.
  destruct L0 as (h0 & tl0 & E0 & Hh0). rewrite E0.
  destruct (enc_seq (SeqID o) ++ h0 :: tl0) as [|f rest] eqn:Ed.
  { destruct (enc_seq (SeqID o)); discriminate. }
  unfold Unmarshal_body.
  rewrite (get_seq_spec zeroHeader _ h0 tl0 f rest Hx) by (lia || exact Ed).
  rewrite (get_text_spec 1 set_Method _ (Method o) h1 tl1 _ h0 tl0)
    by (lia || exact E0).
  assert (Ht : Z_of_byte (byte_of_Z 0x7f) <> 2) by (rewrite last_byte; lia).
  rewrite (get_text_spec 2 set_Error _ (Error o) (byte_of_Z 0x7f) [] _ h1 tl1)
    by (lia || exact E1 || exact Ht).
  cbn [d_header d_o d_i]. rewrite last_byte by lia. simpl negb. cbv iota.
  f_equal. f_equal.
  destruct o as [x m e]; simpl in *.
  destruct (x =? 0) eqn:Ex; [apply Z.eqb_eq in Ex; subst x|];
  (destruct (strlen m =? 0) eqn:Em; [apply Z.eqb_eq, strlen_0 in Em; subst m|]);
  (destruct (strlen e =? 0) eqn:Ee; [apply Z.eqb_eq, strlen_0 in Ee; subst e|]);
  reflexivity.
Qed.


Lemma strlen_le_enc_text tag s : strlen s <= len (enc_text tag s).
Proof.
  unfold enc_text. destruct (strlen s =? 0) eqn:E.
  - apply Z.eqb_eq in E. rewrite E. apply len_nonneg.
  - rewrite len_cons, len_app, len_bytes_of_string.
    pose proof (len_nonneg (enc_varint (strlen s))). lia.
Qed.

(** The bound of [varint_rounds] is never what ends the varint loops:
    with a 64-bit value the loop stops on its guard [x >= 0x80]. *)
Lemma varint_rounds_suffice x :
  is_uint64 x -> (enc_varint_loop varint_rounds x).2 < 0x80.
Proof.
  intros Hx. apply varint_rounds_enough in Hx. revert x Hx.
  induction varint_rounds as [|n IH]; intros x Hx; simpl.
  - change (7 * Z.of_nat 0 + 7) with 7 in Hx. change (2 ^ 7) with 0x80 in Hx. lia.
  - destruct (0x80 <=? x) eqn:E; [|simpl; lia].
    specialize (IH (Z.shiftr x 7)).
    destruct (enc_varint_loop n (Z.shiftr x 7)). simpl in *. apply IH.
    apply shiftr7_bound; [lia|].
    replace (7 * Z.of_nat n + 7 + 7) with (7 * Z.of_nat (S n) + 7) by lia.
    exact Hx.
Qed.

(** C9.  For every header [h] whose [SeqID] is a [uint64] and whose
    [MarshalLen] does not exceed [ColferSizeMax], [MarshalBinary]
    returns a byte sequence without error (and without running out of
    buffer), and [UnmarshalBinary] of that sequence into a zero-valued
    header succeeds and yields [h]. *)
Theorem marshal_unmarshal_roundtrip (h : Header) :
  is_uint64 (SeqID h) ->
  (MarshalLen h).1 <= ColferSizeMax ->
  exists data,
    MarshalBinary h = Returns (data, None)
    /\ UnmarshalBinary zeroHeader data = (h, None).
Proof.
  intros Hx Hl. exists (encode h).
  assert (Hn : (MarshalLen h).2 = None).
  { unfold MarshalLen in *. cbv zeta in *.
    match goal with |- context [if ?c then _ else _] =>
      destruct c eqn:E; simpl in *; [lia | reflexivity] end. }
  split; [now apply MarshalBinary_encode|].
  rewrite MarshalLen_encode in Hl.
  assert (Hm : strlen (Method h) < 2 ^ 32 /\ strlen (Error h) < 2 ^ 32).
  { unfold encode in Hl. rewrite !len_app in Hl.
    pose proof (strlen_le_enc_text 1 (Method h)).
    pose proof (strlen_le_enc_text 2 (Error h)).
    pose proof (len_nonneg (enc_seq (SeqID h))).
    pose proof (len_nonneg (enc_text 1 (Method h))).
    pose proof (len_nonneg (enc_text 2 (Error h))).
    pose proof (len_nonneg [byte_of_Z 127]).
    unfold ColferSizeMax in Hl. lia. }
  unfold UnmarshalBinary, Unmarshal.
  replace (ColferSizeMax <? len (encode h)) with false
    by (symmetry; apply Z.ltb_ge; exact Hl).
  rewrite roundtrip_body by tauto.
  now rewrite Z.eqb_refl.
Qed.

(** The round trip at a header with a wide sequence number, a method
    and an error string. *)
Lemma marshal_unmarshal_roundtrip_witness :
  let h := mkHeader (2 ^ 60 + 5) "/arith/mul" "5can't find service" in
  is_uint64 (SeqID h) /\ (MarshalLen h).1 <= ColferSizeMax /\
  exists data,
    MarshalBinary h = Returns (data, None)
    /\ UnmarshalBinary zeroHeader data = (h, None).
Proof.
  cbv zeta.
  assert (H1 : is_uint64 (SeqID (mkHeader (2 ^ 60 + 5) "/arith/mul" "5can't find service")))
    by (unfold is_uint64; simpl; lia).
  assert (H2 : (MarshalLen (mkHeader (2 ^ 60 + 5) "/arith/mul" "5can't find service")).1
               <= ColferSizeMax)
    by (vm_compute; discriminate).
  exact (conj H1 (conj H2 (marshal_unmarshal_roundtrip _ H1 H2))).
Defined.

End ColferProofs.
(** ** The client: fail modes of [Client.Call] *)

Module ClientProofs.
Import Go Client.

Section Engine.
Context {W I A R : Type} `{!Selector W I A} `{!Invoker W I A R}.

#[local] Abbreviation run := (run W I R).
#[local] Abbreviation Call := (Call A R).

Lemma dispatch_spec (invokers : list I) (s : run) :
  dispatch invokers s
  = mkRun (world s) (reply s) (trace s ++ map EvGo invokers).
Proof.
  unfold dispatch. revert s.
  induction invokers as [|i l IH]; intros s; simpl.
  - rewrite app_nil_r. now destruct s.
  - rewrite IH. simpl. now rewrite <- app_assoc.
Qed.

Lemma dispatched_app (t u : list (event I)) :
  dispatched (t ++ u) = dispatched t ++ dispatched u.
Proof. unfold dispatched. apply omap_app. Qed.

Lemma dispatched_Go (l : list I) : dispatched (map EvGo l) = l.
Proof. induction l; simpl; congruence. Qed.

Lemma calls_Go (l : list I) : calls (map EvGo l) = [].
Proof. induction l; simpl; congruence. Qed.

(** The broadcast loop consumes every arrival unless one of them is nil
    or carries an error; it touches neither the world nor the trace. *)
Lemma broadcast_loop_spec (done : list (option Call)) : forall (r : R) (s : run),
  exists err r',
    broadcast_loop (length done) done r s = Done (err, r', s)
    /\ (err = None <->
        Forall (fun c => exists call, c = Some call /\ succeeded call) done).
Proof.
  induction done as [|c done IH]; intros r s; simpl.
  - exists None, r. repeat split; auto.
  - destruct c as [call|].
    + destruct (Error call) as [e|] eqn:E.
      * eexists _, r. repeat split; try reflexivity; try discriminate.
        intros HF. inversion HF as [|? ? (c' & Hc & Hs) _]; subst.
        injection Hc as <-. unfold succeeded in Hs. congruence.
      * destruct (IH (Reply call) s) as (err & r' & -> & Hiff).
        exists err, r'. repeat split; auto.
        -- intros He. constructor; [exists call; split; auto | now apply Hiff].
        -- intros HF. inversion HF; subst. now apply Hiff.
    + eexists _, r. repeat split; try reflexivity; try discriminate.
      intros HF. inversion HF as [|? ? (c' & Hc & _) _]; subst. discriminate.
Qed.

Lemma Forall_Some_map (P : Call -> Prop) (results : list Call) :
  Forall (fun c => exists call, c = Some call /\ P call) (map Some results)
  <-> Forall P results.
Proof.
  rewrite Forall_map. apply Forall_iff. intros c. simpl. split.
  - intros (c' & Hc & HP). now injection Hc as ->.
  - intros HP. now exists c.
Qed.

Lemma delivers_length (invokers : list I) (results : list Call) done :
  delivers invokers results done -> length done = length invokers.
Proof.
  intros [Hl Hp]. apply Permutation_length in Hp.
  rewrite length_map in Hp. congruence.
Qed.

Lemma len_eqb_0 {X} (l : list X) : (len l =? 0) = true <-> l = [].
Proof.
  unfold len. destruct l; simpl; split; try reflexivity; try discriminate.
Qed.

(** C4.  Under [Broadcast], when every invoker of the selector's list
    delivers its completed call on [done] (in any order), [Client.Call]
    returns after dispatching [Go] to every listed invoker, in order, and
    its error is nil if and only if every one of the completed calls
    carries a nil error. *)
Theorem broadcast_all_or_nothing (client : Client) sm a (s : run)
  (results : list Call) done :
  failMode client = Broadcast ->
  delivers (List (world s)) results done ->
  exists err s',
    Client_Call client sm a done s = Done (err, s')
    /\ dispatched (trace s') = dispatched (trace s) ++ List (world s)
    /\ calls (trace s') = calls (trace s)
    /\ (err = None <-> Forall succeeded results).
Proof.
  intros Hm Hd. unfold Client_Call. rewrite Hm. unfold invokerBroadCast.
  pose proof (delivers_length _ _ _ Hd) as Hlen.
  destruct Hd as [Hl Hp].
  destruct (len (List (world s)) =? 0) eqn:E0.
  - apply len_eqb_0 in E0. rewrite E0 in *.
    destruct results; [|discriminate].
    exists None, s. rewrite app_nil_r. repeat split; auto.
  - rewrite <- Hlen.
    destruct (broadcast_loop_spec done (reply s) (dispatch (List (world s)) s))
      as (err & r' & -> & Hiff).
    exists err, (dispatch (List (world s)) s). rewrite dispatch_spec. simpl.
    unfold calls at 1. rewrite omap_app. fold (calls (trace s)).
    fold (calls (map (@EvGo I) (List (world s)))).
    rewrite dispatched_app, dispatched_Go, calls_Go, app_nil_r.
    repeat split; auto.
    + intros He. apply Forall_Some_map. rewrite <- Hp. now apply Hiff.
    + intros HF. apply Hiff. rewrite Hp. now apply Forall_Some_map.
Qed.


Lemma Permutation_map_Some (done : list (option Call)) (results : list Call) :
  Permutation done (map Some results) ->
  exists arrivals, done = map Some arrivals /\ Permutation results arrivals.
Proof. apply Permutation_map_inv. Qed.

(** The forking loop returns at the first arrival without error: it
    reads nothing of what is behind it on the channel, and stores the
    reply of that call in the variable its pointer addresses. *)
Lemma forking_loop_first_success (pre : list Call) c post :
  forall (l : nat) (r : R) (s : run),
  Forall failed pre -> succeeded c -> (length pre < l)%nat ->
  forking_loop l (map Some pre ++ Some c :: post) r s = Done (None, Reply c, s).
Proof.
  induction pre as [|p pre IH]; intros l r s Hpre Hc Hl; simpl in *.
  - destruct l as [|l]; [lia|]. simpl. unfold succeeded in Hc. now rewrite Hc.
  - destruct l as [|l]; [lia|]. simpl.
    inversion Hpre as [|? ? Hp Hpre']; subst.
    destruct (Error p) as [e|] eqn:E; [|unfold failed in Hp; congruence].
    apply IH; auto. lia.
Qed.

(** When every arrival carries an error, the loop reads them all. *)
Lemma forking_loop_all_failed (arrivals : list Call) : forall (r : R) (s : run),
  Forall failed arrivals ->
  forking_loop (length arrivals) (map Some arrivals) r s
  = Done (Some (Err "all invokers return Error"), r, s).
Proof.
  induction arrivals as [|c l IH]; intros r s HF; simpl; [reflexivity|].
  inversion HF as [|? ? Hc HF']; subst.
  destruct (Error c) as [e|] eqn:E; [|unfold failed in Hc; congruence].
  now apply IH.
Qed.

(** Either every call failed, or there is a first one that succeeded. *)
Lemma first_success (arrivals : list Call) :
  Forall failed arrivals
  \/ exists pre c post,
       arrivals = pre ++ c :: post /\ Forall failed pre /\ succeeded c.
Proof.
  induction arrivals as [|c l IH]; [left; constructor|].
  destruct (Error c) as [e|] eqn:E.
  - assert (Hc : failed c) by (unfold failed; congruence).
    destruct IH as [Hall|(pre & c' & post & -> & Hpre & Hs)].
    + left. now constructor.
    + right. exists (c :: pre), c', post. repeat split; auto.
  - right. exists [], c, l. repeat split; auto.
Qed.

(** [invokerForking] on a first success: every listed invoker was
    dispatched to, nothing else happened, and the reply of the call is
    in the variable behind the pointer argument. *)
Lemma invokerForking_returns_at_success (pre : list Call) c post (r : R) (s : run) :
  Forall failed pre -> succeeded c ->
  (length pre < length (List (world s)))%nat ->
  invokerForking (map Some pre ++ Some c :: post) r s
  = Done (None, Reply c,
          mkRun (world s) (reply s) (trace s ++ map EvGo (List (world s)))).
Proof.
  intros Hpre Hc Hl. unfold invokerForking.
  destruct (len (List (world s)) =? 0) eqn:E0.
  - apply len_eqb_0 in E0. rewrite E0 in Hl. simpl in Hl. lia.
  - rewrite forking_loop_first_success by assumption.
    now rewrite dispatch_spec.
Qed.

(** C5, amended.  Under [Forking] with a non-empty invoker list,
    [Client.Call] dispatches [Go] to every listed invoker, in order.
    First part, "as soon as": once a call without error arrives on
    [done] behind calls that all failed, [Client.Call] returns nil,
    whatever arrives later ([post]) and also when nothing arrives later
    ([post] empty while other invokers have not answered).  Second part:
    when every invoker delivers its completed call, in any order,
    [Client.Call] returns, and its error is non-nil if and only if every
    completed call failed. *)
Theorem forking_first_success (client : Client) sm a (s : run) :
  failMode client = Forking ->
  List (world s) <> [] ->
  (forall (pre : list Call) c post,
     Forall failed pre -> succeeded c ->
     (length pre < length (List (world s)))%nat ->
     exists s',
       Client_Call client sm a (map Some pre ++ Some c :: post) s
       = Done (None, s')
       /\ trace s' = trace s ++ map EvGo (List (world s)))
  /\ (forall (results : list Call) done,
       delivers (List (world s)) results done ->
       exists err s',
         Client_Call client sm a done s = Done (err, s')
         /\ trace s' = trace s ++ map EvGo (List (world s))
         /\ (err <> None <-> Forall failed results)).
Proof.
  intros Hm Hne. unfold Client_Call. rewrite Hm. split.
  - intros pre c post Hpre Hc Hl.
    rewrite invokerForking_returns_at_success by assumption.
    eexists. split; reflexivity.
  - intros results done Hd.
    pose proof (delivers_length _ _ _ Hd) as Hlen.
    destruct Hd as [Hl Hp].
    destruct (Permutation_map_Some _ _ Hp) as (arrivals & -> & Hperm).
    rewrite length_map in Hlen.
    destruct (first_success arrivals)
      as [Hall|(pre & c & post & -> & Hpre & Hc)].
    + unfold invokerForking.
      destruct (len (List (world s)) =? 0) eqn:E0;
        [apply len_eqb_0 in E0; contradiction|].
      rewrite <- Hlen, forking_loop_all_failed by assumption.
      rewrite dispatch_spec. simpl.
      eexists _, _. split; [reflexivity|]. split; [reflexivity|].
      split; [|discriminate]. intros _. now rewrite Hperm.
    + rewrite map_app. simpl map.
      rewrite invokerForking_returns_at_success; auto.
      * eexists _, _. split; [reflexivity|]. split; [reflexivity|].
        split; [congruence|]. intros HF. exfalso.
        rewrite Hperm in HF. apply Forall_app in HF as [_ HF].
        inversion HF; subst. contradiction.
      * rewrite <- Hlen, length_app. simpl. lia.
Qed.

(** C10.  When the selector's list is empty, [Client.Call] under
    [Broadcast] and under [Forking] returns a nil error and leaves the
    whole state as it was: no event is added to the trace (nothing is
    dispatched) and the reply destination keeps its value. *)
Theorem empty_list_reports_success (client : Client) sm a done (s : run) :
  failMode client = Broadcast \/ failMode client = Forking ->
  List (world s) = [] ->
  Client_Call client sm a done s = Done (None, s).
Proof.
  intros [Hm|Hm] Hl; unfold Client_Call; rewrite Hm;
    unfold invokerBroadCast, invokerForking; now rewrite Hl.
Qed.

(** The failover loop against a selector that does not recover: every
    round is used up on a failed attempt, the state follows the
    attempts, and the error is that of the last call. *)
Lemma failover_loop_never_recovers sm a attempts (w : W) (r : R) w' r' :
  never_recovers sm a attempts w r w' r' ->
  forall err0 (t : list (event I)),
  failover_loop (length attempts) sm a err0 (mkRun w r t)
  = (match last attempts with Some att => Some att.2 | None => err0 end,
     mkRun w' r' (t ++ flat_map failed_round attempts)).
Proof.
  induction 1 as [w r|i e attempts w r w1 w2 r2 w' r' Hsel Hcall Hrest IH];
    intros err0 t; simpl.
  - now rewrite app_nil_r.
  - unfold do_Select. cbn [world reply trace emit]. rewrite Hsel.
    unfold do_Call. cbn [world reply trace emit]. rewrite Hcall.
    unfold do_HandleFailed, emit. cbn [world reply trace].
    rewrite IH. f_equal.
    + destruct attempts as [|a0 l]; [reflexivity|].
      change (last ((i, e) :: a0 :: l)) with (last (a0 :: l)).
      destruct (last (a0 :: l)) eqn:El; [reflexivity|].
      apply last_None in El. discriminate.
    + f_equal. now rewrite <- !app_assoc.
Qed.

(** When every [Select] hands out an invoker and every call fails, in
    every world, the selector does not recover over any number of
    attempts. *)
Lemma never_recovers_always sm a :
  (forall w, exists w' i, Select sm a w = (w', Some i, None)) ->
  (forall i r w, exists w' r' e, Invoker_Call i sm a r w = (w', r', Some e)) ->
  forall (n : nat) (w : W) (r : R),
  exists attempts w' r',
    length attempts = n /\ never_recovers sm a attempts w r w' r'.
Proof.
  intros Hsel Hcall. induction n as [|n IH]; intros w r.
  - exists [], w, r. split; [reflexivity|constructor].
  - destruct (Hsel w) as (w1 & i & Hs).
    destruct (Hcall i r w1) as (w2 & r2 & e & Hc).
    destruct (IH (HandleFailed i w2) r2) as (attempts & w' & r' & Hlen & Hrec).
    exists ((i, e) :: attempts), w', r'. split; [simpl; congruence|].
    econstructor; eassumption.
Qed.

Lemma calls_failed_rounds (attempts : list (I * err)) :
  calls (flat_map failed_round attempts) = map fst attempts.
Proof. induction attempts as [|att l IH]; simpl; congruence. Qed.

Lemma handled_failed_rounds (attempts : list (I * err)) :
  handled (flat_map failed_round attempts) = map fst attempts.
Proof. induction attempts as [|att l IH]; simpl; congruence. Qed.

Lemma init_MaxTry_pos (client : Client) : 0 < MaxTry (init client).
Proof. unfold init. destruct (MaxTry client <=? 0) eqn:E; simpl; lia. Qed.

Lemma init_failMode (client : Client) : failMode (init client) = failMode client.
Proof. unfold init. now destruct (MaxTry client <=? 0). Qed.

(** C6, amended.  Under [Failover] on an initialised client, when the
    selector does not recover over [MaxTry] attempts (each [Select], in
    the world the round before left, hands out an invoker and the call
    on that invoker fails), [Client.Call] makes exactly these [MaxTry]
    invoker calls and no other, each followed by [HandleFailed] on the
    invoker that was called, and returns the error of the last call.
    The world and the reply it leaves are those after the last
    [HandleFailed]. *)
Theorem failover_exhausts_MaxTry (client : Client) sm a done (s : run)
  (attempts : list (I * err)) w' r' :
  failMode client = Failover ->
  Z.of_nat (length attempts) = MaxTry (init client) ->
  never_recovers sm a attempts (world s) (reply s) w' r' ->
  exists last_attempt s',
    last attempts = Some last_attempt
    /\ Client_Call (init client) sm a done s = Done (Some last_attempt.2, s')
    /\ world s' = w' /\ reply s' = r'
    /\ trace s' = trace s ++ flat_map failed_round attempts
    /\ calls (trace s') = calls (trace s) ++ map fst attempts
    /\ handled (trace s') = handled (trace s) ++ map fst attempts.
Proof.
  intros Hm Hlen Hrec. unfold Client_Call. rewrite init_failMode, Hm.
  pose proof (init_MaxTry_pos client) as Hpos.
  replace (Z.to_nat (MaxTry (init client))) with (length attempts) by lia.
  destruct s as [w r t]. simpl in Hrec.
  rewrite (failover_loop_never_recovers _ _ _ _ _ _ _ Hrec).
  destruct (last attempts) as [att|] eqn:El.
  - exists att, (mkRun w' r' (t ++ flat_map failed_round attempts)).
    simpl. unfold calls at 1, handled at 1. rewrite !omap_app.
    fold (calls t) (handled t).
    fold (calls (flat_map failed_round attempts)).
    fold (handled (flat_map failed_round attempts)).
    rewrite calls_failed_rounds, handled_failed_rounds.
    repeat split; reflexivity.
  - destruct attempts; [simpl in Hlen; lia|].
    apply last_None in El. discriminate.
Qed.

End Engine.

(** A round whose [Select] fails is used up without an invoker call:
    with no live invoker, three tries make three selections and no
    call, and the error is the last selection's. *)
Example failover_select_fails :
  Client_Call (mkClient Failover 3) "/arith/mul" tt []
    (Script.start (Script.mkWorld [] []) 0)
  = Done (Some (Err "no invoker"),
          mkRun (Script.mkWorld [] []) 0
            [EvSelect None (Some (Err "no invoker"));
             EvSelect None (Some (Err "no invoker"));
             EvSelect None (Some (Err "no invoker"))]).
Proof. reflexivity. Qed.

(** C6 as stated fails on a selector that evicts: one endpoint that is
    down, [MaxTry] 3.  The first round calls the invoker, the call
    fails and [HandleFailed] evicts it; the two rounds left find no
    invoker and make no call.  Every attempt has failed and the
    selector has not recovered, yet there was one invoker attempt, not
    three, and the error returned is the selector's, not that of the
    last call. *)
Lemma failover_evicted_invoker_counterexample :
  let client := init (mkClient Failover 3) in
  MaxTry client = 3
  /\ (forall (i : nat) (r : Z) (cache : list nat),
        (Invoker_Call i "/arith/mul" tt r cache).2
        = Some (Err "connection is shut down"))
  /\ Client_Call client "/arith/mul" tt [] (Evicting.start [1%nat] 0)
     = Done (Some (Err "dial error"),
             mkRun [] 0
               [EvSelect (Some 1%nat) None;
                EvCall 1%nat (Some (Err "connection is shut down"));
                EvHandleFailed 1%nat;
                EvSelect None (Some (Err "dial error"));
                EvSelect None (Some (Err "dial error"))])
  /\ calls
       [EvSelect (Some 1%nat) None;
        EvCall 1%nat (Some (Err "connection is shut down"));
        EvHandleFailed 1%nat;
        EvSelect None (Some (Err "dial error"));
        EvSelect None (Some (Err "dial error"))]
     = [1%nat]
  /\ Z.of_nat (length [1%nat]) <> MaxTry client.
Proof.
  cbv zeta. split; [reflexivity|]. split; [intros; reflexivity|].
  split; [reflexivity|]. split; [reflexivity|]. discriminate.
Qed.

(** C1 fails on the code: under [Failfast] the call returns nil at once
    and touches neither the selector nor any invoker, whatever the
    selector holds. *)
Lemma failfast_returns_at_once {W I A R} `{!Selector W I A} `{!Invoker W I A R}
  maxTry sm (a : A) done (s : run W I R) :
  Client_Call (mkClient Failfast maxTry) sm a done s = Done (None, s).
Proof. reflexivity. Qed.

(** C1, at a failing input: one live invoker whose call would be
    refused.  [Client.Call] reports success with an empty trace: no
    [Select], no [Invoker.Call]. *)
Theorem failfast_makes_no_attempt :
  let w := Script.mkWorld [1%nat] [Some (Err "connection refused")] in
  Client_Call (init (mkClient Failfast 0)) "/arith/mul" tt [] (Script.start w 0)
  = Done (None, mkRun w 0 [])
  /\ (Invoker_Call 1%nat "/arith/mul" tt 0 w).2 = Some (Err "connection refused").
Proof. cbv zeta. split; reflexivity. Qed.

(** C5 as stated fails on the empty list: the call reports success
    although every completed call (there is none) failed. *)
Lemma forking_empty_list_counterexample :
  let s := Script.start (Script.mkWorld [] []) 0 in
  let results : list (Client.Call unit Z) := [] in
  delivers (List (world s)) results []
  /\ Forall (fun c => Error c <> None) results
  /\ Client_Call (mkClient Forking 3) "/arith/mul" tt [] s = Done (None, s).
Proof.
  cbv zeta. split; [|split].
  - split; [reflexivity|constructor].
  - constructor.
  - reflexivity.
Qed.

Lemma empty_list_reports_success_witness :
  let s := Script.start (Script.mkWorld [] [None]) 41 in
  let client := mkClient Broadcast 3 in
  (failMode client = Broadcast \/ failMode client = Forking)
  /\ List (world s) = []
  /\ Client_Call client "/arith/mul" tt [] s = Done (None, s).
Proof.
  cbv zeta.
  pose (s := Script.start (Script.mkWorld [] [None]) 41).
  assert (H1 : failMode (mkClient Broadcast 3) = Broadcast
               \/ failMode (mkClient Broadcast 3) = Forking)
    by (left; reflexivity).
  assert (H2 : List (world s) = []) by reflexivity.
  exact (conj H1 (conj H2
    (empty_list_reports_success (mkClient Broadcast 3) "/arith/mul" tt [] s H1 H2))).
Defined.

Lemma broadcast_all_or_nothing_witness :
  let s := Script.start (Script.mkWorld [1%nat; 2%nat] []) 0 in
  let results := [mkCall "/arith/mul" tt 56 None;
                  mkCall "/arith/mul" tt 0 (Some (Err "refused"))] in
  let done := [Some (mkCall "/arith/mul" tt 0 (Some (Err "refused")));
               Some (mkCall "/arith/mul" tt 56 None)] in
  failMode (mkClient Broadcast 3) = Broadcast
  /\ delivers (List (world s)) results done
  /\ exists err s',
      Client_Call (mkClient Broadcast 3) "/arith/mul" tt done s = Done (err, s')
      /\ dispatched (trace s') = dispatched (trace s) ++ List (world s)
      /\ calls (trace s') = calls (trace s)
      /\ (err = None <-> Forall succeeded results).
Proof.
  cbv zeta.
  pose (s := Script.start (Script.mkWorld [1%nat; 2%nat] []) 0).
  pose (results := [mkCall "/arith/mul" tt 56 None;
                    mkCall "/arith/mul" tt 0 (Some (Err "refused"))]).
  pose (done := [Some (mkCall "/arith/mul" tt 0 (Some (Err "refused")));
                 Some (mkCall "/arith/mul" tt 56 None)]).
  assert (H1 : failMode (mkClient Broadcast 3) = Broadcast) by reflexivity.
  assert (H2 : delivers (List (world s)) results done)
    by (split; [reflexivity | apply perm_swap]).
  exact (conj H1 (conj H2
    (broadcast_all_or_nothing (mkClient Broadcast 3) "/arith/mul" tt s results done H1 H2))).
Defined.

(** C5 on three invokers.  First part: one call arrives with an error,
    then one without, and the third invoker never answers; the call
    returns nil.  Second part: the three of them deliver, one call
    without error among them. *)
Lemma forking_first_success_witness :
  let s := Script.start (Script.mkWorld [1%nat; 2%nat; 3%nat] []) 0 in
  let refused := mkCall "/arith/mul" tt 0 (Some (Err "refused")) in
  let answered := mkCall "/arith/mul" tt 56 None in
  let timed_out := mkCall "/arith/mul" tt 0 (Some (Err "timed out")) in
  failMode (mkClient Forking 3) = Forking
  /\ List (world s) <> []
  /\ (Forall failed [refused] /\ succeeded answered
      /\ (length [refused] < length (List (world s)))%nat
      /\ exists s',
          Client_Call (mkClient Forking 3) "/arith/mul" tt
            (map Some [refused] ++ Some answered :: []) s
          = Done (None, s')
          /\ trace s' = trace s ++ map EvGo (List (world s)))
  /\ (delivers (List (world s)) [timed_out; refused; answered]
        [Some refused; Some answered; Some timed_out]
      /\ exists err s',
          Client_Call (mkClient Forking 3) "/arith/mul" tt
            [Some refused; Some answered; Some timed_out] s
          = Done (err, s')
          /\ trace s' = trace s ++ map EvGo (List (world s))
          /\ (err <> None <-> Forall failed [timed_out; refused; answered])).
Proof.
  cbv zeta.
  pose (s := Script.start (Script.mkWorld [1%nat; 2%nat; 3%nat] []) 0).
  pose (refused := mkCall "/arith/mul" tt 0 (Some (Err "refused"))).
  pose (answered := mkCall "/arith/mul" tt 56 None).
  pose (timed_out := mkCall "/arith/mul" tt 0 (Some (Err "timed out"))).
  assert (H1 : failMode (mkClient Forking 3) = Forking) by reflexivity.
  assert (H2 : List (world s) <> []) by discriminate.
  assert (H3 : Forall failed [refused])
    by (constructor; [discriminate|constructor]).
  assert (H4 : succeeded answered) by reflexivity.
  assert (H5 : (length [refused] < length (List (world s)))%nat)
    by (simpl; lia).
  assert (H6 : delivers (List (world s)) [timed_out; refused; answered]
                 [Some refused; Some answered; Some timed_out]).
  { split; [reflexivity|].
    change [Some refused; Some answered; Some timed_out]
      with ([Some refused; Some answered] ++ [Some timed_out]).
    apply Permutation_sym, Permutation_cons_append. }
  pose proof (forking_first_success (mkClient Forking 3) "/arith/mul" tt s H1 H2)
    as [Hfirst Hall].
  exact (conj H1 (conj H2
    (conj (conj H3 (conj H4 (conj H5 (Hfirst [refused] answered [] H3 H4 H5))))
          (conj H6 (Hall _ _ H6))))).
Defined.

(** C6 on two endpoints that are both down: [HandleFailed] moves the
    failed invoker behind the other one, so the three attempts go to
    invoker 1, invoker 2 and invoker 1 again, each call using up one
    scripted error. *)
Lemma failover_exhausts_MaxTry_witness :
  let w := Script.mkWorld [1%nat; 2%nat]
             [Some (Err "refused"); Some (Err "timed out"); Some (Err "reset")] in
  let s := Script.start w 0 in
  let client := mkClient Failover 0 in
  let attempts := [(1%nat, Err "refused"); (2%nat, Err "timed out");
                   (1%nat, Err "reset")] in
  let w' := Script.mkWorld [2%nat; 1%nat] [] in
  failMode client = Failover
  /\ Z.of_nat (length attempts) = MaxTry (init client)
  /\ never_recovers "/arith/mul" tt attempts (world s) (reply s) w' 0
  /\ exists last_attempt s',
      last attempts = Some last_attempt
      /\ Client_Call (init client) "/arith/mul" tt [] s
         = Done (Some last_attempt.2, s')
      /\ world s' = w' /\ reply s' = 0
      /\ trace s' = trace s ++ flat_map failed_round attempts
      /\ calls (trace s') = calls (trace s) ++ map fst attempts
      /\ handled (trace s') = handled (trace s) ++ map fst attempts.
Proof.
  cbv zeta.
  pose (w := Script.mkWorld [1%nat; 2%nat]
               [Some (Err "refused"); Some (Err "timed out"); Some (Err "reset")]).
  pose (attempts := [(1%nat, Err "refused"); (2%nat, Err "timed out");
                     (1%nat, Err "reset")]).
  assert (H1 : failMode (mkClient Failover 0) = Failover) by reflexivity.
  assert (H2 : Z.of_nat (length attempts) = MaxTry (init (mkClient Failover 0)))
    by reflexivity.
  assert (H3 : never_recovers "/arith/mul" tt attempts
                 (world (Script.start w 0)) (reply (Script.start w 0))
                 (Script.mkWorld [2%nat; 1%nat] []) 0).
  { eapply failed_attempt; [reflexivity|reflexivity|].
    eapply failed_attempt; [reflexivity|reflexivity|].
    eapply failed_attempt; [reflexivity|reflexivity|].
    apply no_attempt. }
  exact (conj H1 (conj H2 (conj H3
    (failover_exhausts_MaxTry (mkClient Failover 0) "/arith/mul" tt []
       (Script.start w 0) attempts _ _ H1 H2 H3)))).
Defined.

End ClientProofs.

(** ** The server *)

Module ServerProofs.
Import Go Server.

(** *** Registration *)

(** [register] installs every service it is given, whether or not the
    path was taken. *)
Lemma register_one_installs rcvr p metadata acc service :
  serviceMap (register_one rcvr p metadata acc service).1 !! svc_path service
  = Some (SetPluginContainer service p).
Proof.
  destruct acc as [server errs]. unfold register_one. simpl.
  apply lookup_insert_eq.
Qed.

(** On a path that is taken, [register_one] records
    [ErrServiceAlreadyExists]. *)
Lemma register_one_reports rcvr p metadata server errs service old :
  serviceMap server !! svc_path service = Some old ->
  In (ErrServiceAlreadyExists (svc_path service))
     (register_one rcvr p metadata (server, errs) service).2.
Proof.
  intros Hold. unfold register_one. rewrite Hold. simpl.
  assert (Hmono : forall l e, In (ErrServiceAlreadyExists (svc_path service)) l ->
            In (ErrServiceAlreadyExists (svc_path service)) (append_error l e)).
  { intros l [e|] Hin; simpl; [|exact Hin]. apply in_or_app. now left. }
  apply Hmono, Hmono. apply in_or_app. right. now left.
Qed.

(** C2, at a failing input.  [RegisterName("arith", new(Arith))] and then
    [RegisterName("arith", new(Arith2))], both with a method [Mul], derive
    the path [/arith/mul] twice.  The second call returns the
    AlreadyExists error, and the entry for the path maps to the service
    of the second receiver: the first entry is replaced. *)
Theorem register_twice_replaces_entry :
  let first := RegisterName (fun _ => None) Arith.empty_server "arith" "Arith" [] in
  let second := RegisterName (fun _ => None) first.1 "arith" "Arith2" [] in
  first.2 = RegNil
  /\ svc_rcvr <$> serviceMap first.1 !! "/arith/mul" = Some "Arith"
  /\ second.2 = NewMultiError [ErrServiceAlreadyExists "/arith/mul"]
  /\ svc_rcvr <$> serviceMap second.1 !! "/arith/mul" = Some "Arith2".
Proof. cbv zeta. repeat split; vm_compute; reflexivity. Qed.

(** *** The context pool *)

(** [getContext] resets every mutable field except [path] and
    [rpcErrorType], which keep what the recycled context held. *)
Lemma reset_spec (ctx : Context) (conn : nat) :
  reset ctx conn
  = with_rpcErrorType (with_path (checked_out conn) (path ctx)) (rpcErrorType ctx).
Proof. reflexivity. Qed.

Lemma reset_keeps_path_and_kind (ctx : Context) (conn : nat) :
  path (reset ctx conn) = path ctx
  /\ rpcErrorType (reset ctx conn) = rpcErrorType ctx.
Proof. split; reflexivity. Qed.

(** C3, at a failing input.  A request for an unknown service is served
    and its context goes back to the pool; the context that the next
    [getContext] checks out still holds the path of that request and the
    error kind NotFoundService. *)
Theorem getContext_keeps_path_and_kind :
  match Server.ServeRequest 0 Arith.server
          (Arith.connect [(1, "/no/such", [1; 1])]) with
  | Returns (_, server, _) =>
      let ctx := (getContext server 0).1 in
      path ctx = "/no/such"
      /\ rpcErrorType ctx = ErrorTypeServerNotFoundService
      /\ ctx <> checked_out 0
  | Panics => False
  end.
Proof.
  vm_compute. repeat split. discriminate.
Qed.

(** *** The request pipeline *)

Section Pipeline.
Context {C : Type} `{!ServerCodec C}.

#[local] Abbreviation conn := (conn C).
#[local] Abbreviation state := (state C).

Ltac break_let :=
  match goal with
  | |- context [let '(_, _) := ?x in _] => destruct x eqn:?
  | H : context [let '(_, _) := ?x in _] |- _ => destruct x eqn:?
  end.

Lemma same_private_refl c : same_private c c.
Proof. repeat split. Qed.

Lemma same_private_trans c1 c2 c3 :
  same_private c1 c2 -> same_private c2 c3 -> same_private c1 c3.
Proof.
  unfold same_private. intros (?&?&?&?&?&?&?) (?&?&?&?&?&?&?).
  repeat split; congruence.
Qed.

Lemma apply_ops_private ops : forall c, same_private c (fold_left apply_op ops c).
Proof.
  induction ops as [|op ops IH]; intros c; simpl.
  - apply same_private_refl.
  - eapply same_private_trans; [|apply IH]. destruct op; repeat split.
Qed.

Lemma run_hook_private h c c' e : run_hook h c = (c', e) -> same_private c c'.
Proof.
  unfold run_hook. destruct (h (view c)) as [ops e']. intros [= <- <-].
  apply apply_ops_private.
Qed.

Lemma preWriteResponse_private server c b c' e :
  preWriteResponse server c b = (c', e) -> same_private c c'.
Proof.
  unfold preWriteResponse.
  destruct (run_hook _ c) as [c1 e1] eqn:H1. apply run_hook_private in H1.
  destruct e1; [intros [= <- <-]; exact H1|].
  destruct (service c1); [|intros [= <- <-]; exact H1].
  intros H2. apply run_hook_private in H2.
  eapply same_private_trans; eassumption.
Qed.

Lemma preReadRequestBody_private server c b c' e :
  preReadRequestBody server c b = (c', e) -> same_private c c'.
Proof.
  unfold preReadRequestBody.
  destruct (run_hook _ c) as [c1 e1] eqn:H1. apply run_hook_private in H1.
  destruct e1; [intros [= <- <-]; exact H1|].
  destruct (service c1); [|intros [= <- <-]; exact H1].
  intros H2. apply run_hook_private in H2.
  eapply same_private_trans; eassumption.
Qed.

(** The response fields are out of the hooks' sight: setting them
    before a hook runs or after it is the same. *)
Lemma apply_ops_with_resp ops r : forall c,
  fold_left apply_op ops (with_resp c r) = with_resp (fold_left apply_op ops c) r.
Proof.
  induction ops as [|op ops IH]; intros c; simpl; [reflexivity|].
  rewrite <- IH. f_equal. now destruct op.
Qed.

Lemma run_hook_with_resp h c r :
  run_hook h (with_resp c r)
  = (with_resp (run_hook h c).1 r, (run_hook h c).2).
Proof.
  unfold run_hook. change (view (with_resp c r)) with (view c).
  destruct (h (view c)) as [ops e]. simpl. now rewrite apply_ops_with_resp.
Qed.

Lemma preWriteResponse_with_resp server c r b :
  preWriteResponse server (with_resp c r) b
  = (with_resp (preWriteResponse server c b).1 r,
     (preWriteResponse server c b).2).
Proof.
  unfold preWriteResponse. rewrite run_hook_with_resp.
  destruct (run_hook _ c) as [c1 [e1|]]; simpl; [reflexivity|].
  destruct (service c1); [|reflexivity].
  apply run_hook_with_resp.
Qed.

(** [writeResponse] writes exactly one response; its error string is the
    message in the context prefixed with the context's kind, or the
    message of a failing [PreWriteResponse] hook prefixed with kind 9. *)
Lemma writeResponse_spec server ctx b (cn : conn) :
  exists err ctx' c' r b',
    writeResponse server ctx b cn = (err, ctx', mkConn c' (wire cn ++ [EvWrite r b']))
    /\ resp_Seq r = resp_Seq (resp ctx)
    /\ resp_ServiceMethod r = resp_ServiceMethod (resp ctx)
    /\ match (preWriteResponse server ctx b).2 with
       | Some e =>
           b' = BodyNil
           /\ resp_Error r = prefixed ErrorTypeServerPreWriteResponse (Error_string e)
       | None =>
           b' = b
           /\ resp_Error r = prefixed (rpcErrorType ctx) (resp_Error (resp ctx))
       end.
Proof.
  unfold writeResponse.
  destruct (preWriteResponse server ctx b) as [c1 e1] eqn:Hpre.
  apply preWriteResponse_private in Hpre.
  destruct Hpre as (Hreq & Hresp & Hsvc & _ & _ & Hkind & _).
  simpl snd.
  set (cb := match e1 with
             | Some e => (set_resp_Error (set_rpcErrorType c1 ErrorTypeServerPreWriteResponse)
                            (Error_string e), BodyNil)
             | None => (c1, b) end).
  destruct cb as [c2 b2] eqn:Hcb.
  set (c3 := if 0 <? strlen (resp_Error (resp c2))
             then set_resp_Error c2 (Itoa (rpcErrorType c2) +:+ resp_Error (resp c2))
             else c2).
  assert (Hc3 : resp_Seq (resp c3) = resp_Seq (resp c2)
                /\ resp_ServiceMethod (resp c3) = resp_ServiceMethod (resp c2)
                /\ resp_Error (resp c3)
                   = prefixed (rpcErrorType c2) (resp_Error (resp c2))).
  { unfold c3, prefixed. destruct (0 <? strlen (resp_Error (resp c2))); auto. }
  destruct Hc3 as (Hs3 & Hm3 & He3).
  destruct (WriteResponse (codec cn) (resp c3) b2) as [c' werr] eqn:Hw.
  assert (Hgoal : resp_Seq (resp c3) = resp_Seq (resp ctx)
            /\ resp_ServiceMethod (resp c3) = resp_ServiceMethod (resp ctx)
            /\ match e1 with
               | Some e => b2 = BodyNil /\ resp_Error (resp c3)
                     = prefixed ErrorTypeServerPreWriteResponse (Error_string e)
               | None => b2 = b /\ resp_Error (resp c3)
                     = prefixed (rpcErrorType ctx) (resp_Error (resp ctx))
               end).
  { rewrite Hs3, Hm3, He3. subst cb. destruct e1 as [e|]; injection Hcb as <- <-; simpl.
    - rewrite Hresp. auto.
    - rewrite Hresp, Hkind. auto. }
  destruct werr as [e|].
  - eexists _, _, _, _, _. split; [reflexivity|exact Hgoal].
  - repeat break_let. eexists _, _, _, _, _. split; [reflexivity|exact Hgoal].
Qed.

Lemma eqb_empty_false s : s <> "" -> String.eqb s "" = false.
Proof. intros Hs. now apply String.eqb_neq. Qed.

Lemma strlen_pos s : s <> "" -> (0 <? strlen s) = true.
Proof.
  intros Hs. apply Z.ltb_lt. destruct s; [contradiction|].
  unfold strlen. simpl. lia.
Qed.

(** [sendResponse] writes one response that carries the sequence number
    and the service method of the request; its error string is the
    message prefixed with the kind the context holds, or the message of
    a failing [PreWriteResponse] hook prefixed with kind 9. *)
Lemma sendResponse_writes server ctx errmsg (cn : conn) :
  errmsg <> "" \/ is_Some (replyv ctx) ->
  exists server' cn' r b,
    sendResponse server ctx errmsg cn = Returns (server', cn')
    /\ wire cn' = wire cn ++ [EvWrite r b]
    /\ resp_Seq r = req_Seq (req ctx)
    /\ resp_ServiceMethod r = req_ServiceMethod (req ctx)
    /\ match (preWriteResponse server ctx (response_body ctx errmsg)).2 with
       | Some e =>
           b = BodyNil
           /\ resp_Error r = prefixed ErrorTypeServerPreWriteResponse (Error_string e)
       | None =>
           b = response_body ctx errmsg
           /\ resp_Error r = prefixed (rpcErrorType ctx) (response_message ctx errmsg)
       end.
Proof.
  intros Hok. unfold sendResponse, response_body, response_message.
  destruct (String.eqb errmsg "") eqn:Eq; simpl negb; cbv iota.
  - apply String.eqb_eq in Eq. subst errmsg.
    destruct Hok as [Hne|[v Hv]]; [contradiction|].
    cbn [replyv with_resp]. rewrite Hv. simpl body_of.
    match goal with |- context [writeResponse server ?c ?b cn] =>
      destruct (writeResponse_spec server c b cn)
        as (err & ctx' & c' & r & b' & -> & Hs & Hm & Hpre) end.
    eexists _, _, r, b'. split; [reflexivity|].
    split; [reflexivity|]. split; [exact Hs|]. split; [exact Hm|].
    rewrite !preWriteResponse_with_resp in Hpre. simpl in Hpre. exact Hpre.
  - match goal with |- context [writeResponse server ?c ?b cn] =>
      destruct (writeResponse_spec server c b cn)
        as (err & ctx' & c' & r & b' & -> & Hs & Hm & Hpre) end.
    eexists _, _, r, b'. split; [reflexivity|].
    split; [reflexivity|]. split; [exact Hs|]. split; [exact Hm|].
    unfold set_resp_Error in Hpre.
    rewrite !preWriteResponse_with_resp in Hpre. simpl in Hpre. exact Hpre.
Qed.

Lemma sendResponse_spec server ctx errmsg (cn : conn) :
  errmsg <> "" ->
  exists server' cn' r b,
    sendResponse server ctx errmsg cn = Returns (server', cn')
    /\ wire cn' = wire cn ++ [EvWrite r b]
    /\ resp_Seq r = req_Seq (req ctx)
    /\ resp_ServiceMethod r = req_ServiceMethod (req ctx)
    /\ ((preWriteResponse server ctx invalidRequest).2 = None ->
        b = invalidRequest
        /\ resp_Error r = Itoa (rpcErrorType ctx) +:+ errmsg).
Proof.
  intros Hmsg.
  destruct (sendResponse_writes server ctx errmsg cn (or_introl Hmsg))
    as (server' & cn' & r & b & Hsend & Hw & Hs & Hm & Hpre).
  exists server', cn', r, b. do 4 (split; [assumption|]).
  unfold response_body, response_message in Hpre.
  rewrite (eqb_empty_false _ Hmsg) in Hpre.
  intros Hnone. rewrite Hnone in Hpre. destruct Hpre as [-> ->].
  split; [reflexivity|]. unfold prefixed. now rewrite (strlen_pos _ Hmsg).
Qed.

(** [call] hands the handler's error message to [sendResponse] on a
    context whose kind is the one it was given: the handler path sets
    no kind. *)
Lemma call_keeps_kind server ctx (cn : conn) svc a r :
  service ctx = Some svc -> argv ctx = Some a -> replyv ctx = Some r ->
  exists ctx',
    call server ctx cn
    = sendResponse server ctx' (errmsg_of (svc_call svc a r (view ctx)).2) cn
    /\ rpcErrorType ctx' = rpcErrorType ctx
    /\ req ctx' = req ctx /\ resp ctx' = resp ctx
    /\ replyv ctx' = Some (svc_call svc a r (view ctx)).1.1.
Proof.
  intros Hs Ha Hr. unfold call. rewrite Hs, Ha, Hr.
  destruct (svc_call svc a r (view ctx)) as [[r' ops] err]. simpl.
  eexists. split; [reflexivity|].
  destruct (apply_ops_private ops (with_replyv ctx (Some r')))
    as (Hq & Hp & _ & _ & Hrv & Hk & _).
  repeat split; assumption.
Qed.

(** When [readRequestHeader] reports [keepReading], the codec has
    returned a header without error, that header is the request of the
    context, nothing asks to skip the response, and a failure is of one
    of the three kinds of the header stage. *)
Lemma readRequestHeader_keepReading server ctx (cn : conn) ns err ctx' cn' :
  readRequestHeader server ctx cn = (true, ns, err, ctx', cn') ->
  ns = false
  /\ (exists c rq,
        ReadRequestHeader (codec cn) (req ctx) = (c, rq, None)
        /\ req ctx' = rq
        /\ cn' = mkConn c (wire cn ++ [EvReadHeader]))
  /\ argv ctx' = argv ctx /\ replyv ctx' = replyv ctx
  /\ match err with
     | Some _ =>
         rpcErrorType ctx' = ErrorTypeServerInvalidServiceMethod
         \/ rpcErrorType ctx' = ErrorTypeServerPostReadRequestHeader
         \/ rpcErrorType ctx' = ErrorTypeServerNotFoundService
     | None => is_Some (service ctx')
     end.
Proof.
  unfold readRequestHeader.
  destruct (run_hook _ ctx) as [c1 e1] eqn:H1. apply run_hook_private in H1.
  destruct H1 as (Hreq1 & _ & _ & Ha1 & Hr1 & _ & _).
  destruct e1; [intros [=]|].
  rewrite Hreq1.
  destruct (ReadRequestHeader (codec cn) (req ctx)) as [[c rq] herr] eqn:Hh.
  destruct herr as [e|]; [destruct e; intros [=]|].
  destruct (URIParse _ _) as [[p q] uerr].
  destruct uerr as [e|].
  { intros [= <- <- <- <-]. simpl. repeat split; eauto. }
  destruct (run_hook _ (with_query _ q)) as [c2 e2] eqn:H2.
  apply run_hook_private in H2.
  destruct H2 as (Hreq2 & _ & _ & Ha2 & Hr2 & _ & _). simpl in *.
  destruct e2 as [e|].
  { intros [= <- <- <- <-]. simpl. rewrite Hreq2, Ha2, Hr2.
    repeat split; eauto. }
  destruct (serviceMap server !! path c2) as [svc|] eqn:Hl; simpl;
    intros [= <- <- <- <-]; simpl; rewrite ?Hreq2, ?Ha2, ?Hr2;
    repeat split; eauto.
Qed.

(** End of stream on the header read: no [keepReading], and the
    response is to be skipped. *)
Lemma readRequestHeader_EOF server ctx (cn : conn) c rq :
  (run_hook (doPreReadRequestHeader (PluginContainer_ server)) ctx).2 = None ->
  ReadRequestHeader (codec cn) (req ctx) = (c, rq, Some io_EOF) ->
  exists ctx',
    readRequestHeader server ctx cn
    = (false, true, Some io_EOF, ctx', mkConn c (wire cn ++ [EvReadHeader])).
Proof.
  intros Hpre Hh. unfold readRequestHeader.
  destruct (run_hook _ ctx) as [c1 e1] eqn:H1. simpl in Hpre. subst e1.
  apply run_hook_private in H1. destruct H1 as (Hreq1 & _).
  rewrite Hreq1, Hh. eexists. reflexivity.
Qed.

(** [readRequestBody] either stops at a [PreReadRequestBody] hook,
    with kind 6 and the codec untouched, or makes one body read on the
    codec; a failure after that is of kind 7 or 8, and without failure
    the kind of the context is as before. *)
Lemma readRequestBody_spec server ctx dest (cn : conn) :
  exists err ctx' cn' content,
    readRequestBody server ctx dest cn = (err, ctx', cn', content)
    /\ req ctx' = req ctx /\ argv ctx' = argv ctx /\ replyv ctx' = replyv ctx
    /\ service ctx' = service ctx
    /\ ((is_Some err /\ cn' = cn
         /\ rpcErrorType ctx' = ErrorTypeServerPreReadRequestBody
         /\ is_Some (preReadRequestBody server ctx (body_of dest)).2)
        \/ (wire cn' = wire cn ++ [EvReadBody dest]
            /\ (preReadRequestBody server ctx (body_of dest)).2 = None
            /\ match err with
               | Some _ =>
                   rpcErrorType ctx' = ErrorTypeServerReadRequestBody
                   \/ rpcErrorType ctx' = ErrorTypeServerPostReadRequestBody
               | None => rpcErrorType ctx' = rpcErrorType ctx
               end)).
Proof.
  unfold readRequestBody.
  destruct (preReadRequestBody server ctx (body_of dest)) as [c1 e1] eqn:H1.
  apply preReadRequestBody_private in H1.
  destruct H1 as (Hq1 & _ & Hs1 & Ha1 & Hr1 & Hk1 & _). simpl snd.
  destruct e1 as [e|].
  { eexists _, _, _, _. split; [reflexivity|]. simpl.
    do 4 (split; [assumption|]). left. repeat split; eauto. }
  destruct (ReadRequestBody (codec cn) dest) as [[c content] rerr].
  destruct rerr as [e|].
  { eexists _, _, _, _. split; [reflexivity|]. simpl.
    do 4 (split; [assumption|]). right. repeat split; auto. }
  set (filled := body_of _).
  destruct (match service c1 with
            | Some svc => run_hook (doPostReadRequestBody (svc_plugins svc) filled) c1
            | None => (c1, None) end) as [c2 e2] eqn:H2.
  assert (P2 : same_private c1 c2).
  { destruct (service c1); [eapply run_hook_private; eassumption|].
    injection H2 as <- <-. apply same_private_refl. }
  destruct P2 as (Hq2 & _ & Hs2 & Ha2 & Hr2 & Hk2 & _).
  destruct (match e2 with
            | None => run_hook (doPostReadRequestBody (PluginContainer_ server) filled) c2
            | Some _ => (c2, e2) end) as [c3 e3] eqn:H3.
  assert (P3 : same_private c2 c3).
  { destruct e2; [injection H3 as <- <-; apply same_private_refl|].
    eapply run_hook_private; eassumption. }
  destruct P3 as (Hq3 & _ & Hs3 & Ha3 & Hr3 & Hk3 & _).
  destruct e3 as [e|]; eexists _, _, _, _; (split; [reflexivity|]); simpl;
    do 4 (split; [congruence|]); right; repeat split; auto; congruence.
Qed.

(** A failure of [readRequest] after the header was parsed: the header
    came from the codec without error, the response is not skipped, and
    the round made one body read on the codec unless a
    [PreReadRequestBody] hook failed, which the kind 6 tells.  The body
    was read into nil, which discards it, when [readRequestHeader] had
    failed, and into the pointer to the new argument value of the
    service otherwise. *)
Lemma readRequest_recoverable server ctx (cn : conn) ns e ctx' cn' :
  readRequest server ctx cn = Returns (true, ns, Some e, ctx', cn') ->
  ns = false
  /\ (exists c rq,
        ReadRequestHeader (codec cn) (req ctx) = (c, rq, None)
        /\ req ctx' = rq)
  /\ exists dest,
       match header_error server ctx cn with
       | Some _ => dest = None
       | None => exists svc, service ctx' = Some svc /\ dest = Some (arg_pointer svc)
       end
       /\ ((rpcErrorType ctx' = ErrorTypeServerPreReadRequestBody
            /\ wire cn' = wire cn ++ [EvReadHeader])
           \/ (rpcErrorType ctx' <> ErrorTypeServerPreReadRequestBody
               /\ wire cn' = wire cn ++ [EvReadHeader; EvReadBody dest])).
Proof.
  unfold readRequest, header_error.
  destruct (readRequestHeader server ctx cn) as [[[[kr ns0] herr] c1] cn1] eqn:Hh.
  cbn [fst snd].
  destruct herr as [he|].
  - destruct kr; simpl negb; cbv iota; [|intros [=]].
    destruct (readRequestHeader_keepReading _ _ _ _ _ _ _ Hh)
      as (-> & (c & rq & Hrd & Hrq & ->) & _ & _ & Hkind).
    destruct (readRequestBody_spec server c1 None (mkConn c (wire cn ++ [EvReadHeader])))
      as (berr & c2 & cn2 & content & -> & Hq & _ & _ & _ & Hcase).
    intros [= <- <- <- <-]. split; [reflexivity|].
    split; [exists c, rq; split; [exact Hrd|congruence]|].
    exists None. split; [reflexivity|].
    destruct Hcase as [(_ & -> & Hk & _)|(Hw & _ & Hk)].
    + left. split; [exact Hk|reflexivity].
    + right. split.
      * destruct berr.
        -- unfold ErrorTypeServerReadRequestBody, ErrorTypeServerPostReadRequestBody,
             ErrorTypeServerPreReadRequestBody in *. lia.
        -- unfold ErrorTypeServerInvalidServiceMethod,
             ErrorTypeServerPostReadRequestHeader, ErrorTypeServerNotFoundService,
             ErrorTypeServerPreReadRequestBody in *. lia.
      * rewrite Hw. simpl. now rewrite <- app_assoc.
  - destruct (service c1) as [svc|] eqn:Hsvc; [|intros [=]].
    assert (Hkr : kr = true /\ ns0 = false).
    { revert Hh. unfold readRequestHeader. repeat break_let.
      repeat match goal with
             | |- context [match ?x with _ => _ end] => destruct x
             end; intros [=]; subst; auto. }
    destruct Hkr as [-> ->].
    destruct (readRequestHeader_keepReading _ _ _ _ _ _ _ Hh)
      as (_ & (c & rq & Hrd & Hrq & ->) & _ & _ & _).
    assert (Hptr : (match svc_argType svc with
                    | Ptr elem => (reflect_New elem, false)
                    | Named _ => (reflect_New (svc_argType svc), true)
                    end).1 = arg_pointer svc)
      by (unfold arg_pointer; now destruct (svc_argType svc)).
    destruct (match svc_argType svc with
              | Ptr elem => (reflect_New elem, false)
              | Named _ => (reflect_New (svc_argType svc), true)
              end) as [av isv].
    simpl in Hptr. subst av.
    match goal with |- context [readRequestBody server ?cc ?dd ?nn] =>
      destruct (readRequestBody_spec server cc dd nn)
        as (berr & c2 & cn2 & content & -> & Hq & _ & _ & Hs2 & Hcase) end.
    destruct berr as [be|]; [|intros [=]].
    intros [= <- <- <- <-]. split; [reflexivity|].
    split; [exists c, rq; split; [exact Hrd|simpl; simpl in Hq; congruence]|].
    exists (Some (arg_pointer svc)). split.
    { exists svc. split; [|reflexivity].
      cbn [service with_argv]. rewrite Hs2. exact Hsvc. }
    destruct Hcase as [(_ & -> & Hk & _)|(Hw & _ & Hk)].
    + left. split; [exact Hk|reflexivity].
    + right. split.
      * simpl. unfold ErrorTypeServerReadRequestBody, ErrorTypeServerPostReadRequestBody,
             ErrorTypeServerPreReadRequestBody in *. lia.
      * rewrite Hw. simpl. now rewrite <- app_assoc.
Qed.

Lemma getContext_req server id :
  req (getContext server id).1 = mkRequest "" 0.
Proof. unfold getContext. destruct (pool_Get _). reflexivity. Qed.

(** C8, amended.  First part: in a round of [ServeConn] whose
    [readRequest] fails after the header was parsed ([keepReading]) with
    an error whose message is not empty, the codec had returned the
    header without error; the server writes one response that carries the
    sequence number of that header (with the placeholder body and the
    message prefixed by the kind, when no [PreWriteResponse] hook fails),
    starts no task, leaves the connection open and goes on with the next
    round.  The round has read the body from the codec once, unless a
    [PreReadRequestBody] hook failed (kind 6): then the body is not
    read.  The destination [dest] of that read is nil, which discards
    the body, when [readRequestHeader] had failed, and the pointer to
    the new argument value of the service when the failure came at the
    body stage.
    Second part: when the [PreReadRequestHeader] hooks pass and the
    codec's header read returns [io.EOF], [ServeConn] writes no response
    and closes the connection. *)
Theorem header_failure_recovers_eof_closes :
  (forall id (st : state) ns e ctx' cn' rounds,
     readRequest (getContext (srv st) id).2 (getContext (srv st) id).1 (cn st)
       = Returns (true, ns, Some e, ctx', cn') ->
     Error_string e <> "" ->
     exists st' r b c rq dest,
       ServeConn_round id st = Returns (Continue, st')
       /\ ServeConn (S rounds) id st = ServeConn rounds id st'
       /\ ReadRequestHeader (codec (cn st)) (mkRequest "" 0) = (c, rq, None)
       /\ resp_Seq r = req_Seq rq
       /\ spawned st' = spawned st
       /\ match header_error (getContext (srv st) id).2
                  (getContext (srv st) id).1 (cn st) with
          | Some _ => dest = None
          | None =>
              exists svc, service ctx' = Some svc /\ dest = Some (arg_pointer svc)
          end
       /\ ((rpcErrorType ctx' = ErrorTypeServerPreReadRequestBody
            /\ wire (cn st') = wire (cn st) ++ [EvReadHeader; EvWrite r b])
           \/ (rpcErrorType ctx' <> ErrorTypeServerPreReadRequestBody
               /\ wire (cn st')
                  = wire (cn st) ++ [EvReadHeader; EvReadBody dest; EvWrite r b]))
       /\ ((preWriteResponse (getContext (srv st) id).2 ctx' invalidRequest).2 = None ->
           b = invalidRequest
           /\ resp_Error r = Itoa (rpcErrorType ctx') +:+ Error_string e))
  /\ (forall id (st : state) c rq rounds,
       (run_hook (doPreReadRequestHeader (PluginContainer_ (srv st)))
          (getContext (srv st) id).1).2 = None ->
       ReadRequestHeader (codec (cn st)) (mkRequest "" 0) = (c, rq, Some io_EOF) ->
       exists st',
         ServeConn (S rounds) id st = Closed st'
         /\ wire (cn st') = wire (cn st) ++ [EvReadHeader; EvClose]
         /\ codec (cn st') = Close c
         /\ spawned st' = spawned st).
Proof.
  split.
  - intros id st ns e ctx' cn' rounds Hrd Hmsg.
    destruct (readRequest_recoverable _ _ _ _ _ _ _ Hrd)
      as (-> & (c & rq & Hh & Hrq) & dest & Hdest & Hbody).
    rewrite getContext_req in Hh.
    destruct (sendResponse_spec (getContext (srv st) id).2 ctx' (Error_string e) cn' Hmsg)
      as (server' & cn'' & r & b & Hsend & Hw & Hseq & _ & Hpre).
    assert (Hround : ServeConn_round id st
                     = Returns (Continue, mkState server' cn'' (spawned st))).
    { unfold ServeConn_round.
      destruct (getContext (srv st) id) as [ctx0 server0]. simpl in *.
      rewrite Hrd. simpl. now rewrite Hsend. }
    exists (mkState server' cn'' (spawned st)), r, b, c, rq, dest.
    split; [exact Hround|]. split; [simpl; now rewrite Hround|].
    split; [exact Hh|]. split; [congruence|]. split; [reflexivity|].
    split; [exact Hdest|].
    split; [|exact Hpre]. simpl. rewrite Hw.
    destruct Hbody as [(Hk & ->)|(Hk & ->)].
    + left. split; [exact Hk|]. now rewrite <- app_assoc.
    + right. split; [exact Hk|]. now rewrite <- app_assoc.
  - intros id st c rq rounds Hpre Hh.
    assert (Hsrv : PluginContainer_ (getContext (srv st) id).2 = PluginContainer_ (srv st)).
    { unfold getContext. destruct (pool_Get _). reflexivity. }
    rewrite <- Hsrv in Hpre. rewrite <- (getContext_req (srv st) id) in Hh.
    destruct (readRequestHeader_EOF _ _ _ _ _ Hpre Hh) as (ctx' & Hhd).
    simpl. unfold ServeConn_round.
    destruct (getContext (srv st) id) as [ctx0 server0]. simpl in *.
    unfold readRequest. rewrite Hhd. simpl.
    eexists. split; [reflexivity|]. simpl. rewrite <- app_assoc. auto.
Qed.

(** *** Every failure goes out with its kind *)

(** The header stage on a header that is accepted: it fails with
    NotFoundService when the registry has no service under the path,
    and passes with the service set otherwise. *)
Lemma readRequestHeader_accepted server ctx (cn : conn) c3 c rq :
  header_accepted server ctx cn c3 c rq ->
  readRequestHeader server ctx cn
  = match serviceMap server !! path c3 with
    | None =>
        (true, false,
         Some (NewError ("can't find service '" +:+ path c3 +:+ "'")),
         set_rpcErrorType (with_service c3 None) ErrorTypeServerNotFoundService,
         mkConn c (wire cn ++ [EvReadHeader]))
    | Some svc =>
        (true, false, None, with_service c3 (Some svc),
         mkConn c (wire cn ++ [EvReadHeader]))
    end.
Proof.
  intros (c1 & p & q & [Hpre Hrd] & Hparse & Hpost).
  unfold readRequestHeader. rewrite Hpre.
  rewrite Hrd. cbn [with_req req]. rewrite Hparse.
  unfold parsed in Hpost. rewrite Hpost. cbn [service with_service path].
  now destruct (serviceMap server !! path c3).
Qed.

(** With the discard passing, a failure of the header stage after the
    header was read is the failure of [readRequest], and the kind that
    the header stage has set is the kind that the context keeps. *)
Lemma readRequest_header_failure server ctx (cn : conn) e ch cnh :
  readRequestHeader server ctx cn = (true, false, Some e, ch, cnh) ->
  discard_passes server ctx cn ->
  exists ctx' cn1,
    readRequest server ctx cn = Returns (true, false, Some e, ctx', cn1)
    /\ rpcErrorType ctx' = rpcErrorType ch.
Proof.
  intros Hh Hd. unfold discard_passes in Hd. rewrite Hh in Hd.
  unfold readRequest. rewrite Hh. simpl negb. cbv iota.
  destruct (readRequestBody_spec server ch None cnh)
    as (berr & c2 & cn2 & content & Hb & _ & _ & _ & _ & Hcase).
  rewrite Hb in Hd |- *. simpl in Hd. subst berr.
  exists c2, cn2. split; [reflexivity|].
  destruct Hcase as [([? [=]] & _)|(_ & _ & Hk)]; exact Hk.
Qed.

(** The body stage of a request that is routed to [svc]. *)
Lemma readRequest_routed server ctx (cn : conn) c3 c rq svc :
  header_accepted server ctx cn c3 c rq ->
  serviceMap server !! path c3 = Some svc ->
  readRequest server ctx cn
  = let '(err, ctx', cn', content) :=
      readRequestBody server (routed c3 svc) (Some (arg_pointer svc))
        (mkConn c (wire cn ++ [EvReadHeader])) in
    let ctx' := with_argv ctx' (decoded_into (argv ctx') content) in
    match err with
    | Some _ => Returns (true, false, err, ctx', cn')
    | None =>
        Returns (true, false, None,
                 with_replyv ctx'
                   (Some match svc_replyType svc with
                         | Ptr elem => reflect_New elem
                         | Named _ => Elem (reflect_New (svc_replyType svc))
                         end),
                 cn')
    end.
Proof.
  intros Hacc Hsvc. unfold readRequest.
  rewrite (readRequestHeader_accepted _ _ _ _ _ _ Hacc), Hsvc.
  cbn [service with_service]. unfold routed, arg_value, arg_pointer.
  destruct (svc_argType svc); cbv zeta;
    match goal with |- context [readRequestBody ?a ?b ?d ?n] =>
      destruct (readRequestBody a b d n) as [[[[?|] ?] ?] ?] end;
    reflexivity.
Qed.

(** Every failure of reading a request shows as the error of
    [readRequest], with the message of the failure, on a context that
    holds the kind of the failure. *)
Lemma request_fails_readRequest server ctx (cn : conn) f :
  request_fails server ctx cn f ->
  discard_passes server ctx cn ->
  exists e ctx' cn1,
    readRequest server ctx cn = Returns (true, false, Some e, ctx', cn1)
    /\ Error_string e = message_of f
    /\ rpcErrorType ctx' = kind_of f.
Proof.
  intros Hf Hd.
  destruct Hf as [c1 c rq p q e [Hpre Hrd] Hparse
                 |c1 c rq p q c3 e [Hpre Hrd] Hparse Hpost
                 |c3 c rq Hacc Hnone
                 |c3 c rq svc c5 e Hacc Hsvc Hprebody
                 |c3 c rq svc c5 c' content e Hacc Hsvc Hprebody Hbody
                 |c3 c rq svc c5 c' content c6 e Hacc Hsvc Hprebody Hbody Hpostbody].
  - assert (Hh : readRequestHeader server ctx cn
                 = (true, false, Some (NewError (Error_string e)),
                    set_rpcErrorType (parsed c1 rq p q)
                      ErrorTypeServerInvalidServiceMethod,
                    mkConn c (wire cn ++ [EvReadHeader]))).
    { unfold readRequestHeader. rewrite Hpre, Hrd. cbn [with_req req].
      now rewrite Hparse. }
    destruct (readRequest_header_failure _ _ _ _ _ _ Hh Hd)
      as (ctx' & cn1 & Hr & Hk).
    eexists _, ctx', cn1. split; [exact Hr|]. split; [reflexivity|exact Hk].
  - assert (Hh : readRequestHeader server ctx cn
                 = (true, false, Some e,
                    set_rpcErrorType c3 ErrorTypeServerPostReadRequestHeader,
                    mkConn c (wire cn ++ [EvReadHeader]))).
    { unfold readRequestHeader. rewrite Hpre, Hrd. cbn [with_req req].
      rewrite Hparse. unfold parsed in Hpost. now rewrite Hpost. }
    destruct (readRequest_header_failure _ _ _ _ _ _ Hh Hd)
      as (ctx' & cn1 & Hr & Hk).
    eexists _, ctx', cn1. split; [exact Hr|]. split; [reflexivity|exact Hk].
  - pose proof (readRequestHeader_accepted _ _ _ _ _ _ Hacc) as Hh.
    rewrite Hnone in Hh.
    destruct (readRequest_header_failure _ _ _ _ _ _ Hh Hd)
      as (ctx' & cn1 & Hr & Hk).
    eexists _, ctx', cn1. split; [exact Hr|]. split; [reflexivity|exact Hk].
  - rewrite (readRequest_routed _ _ _ _ _ _ _ Hacc Hsvc).
    unfold readRequestBody. cbn [body_of]. rewrite Hprebody.
    eexists _, _, _. split; [reflexivity|]. split; reflexivity.
  - rewrite (readRequest_routed _ _ _ _ _ _ _ Hacc Hsvc).
    unfold readRequestBody. cbn [body_of]. rewrite Hprebody.
    cbn [codec]. rewrite Hbody.
    eexists _, _, _. split; [reflexivity|]. split; reflexivity.
  - rewrite (readRequest_routed _ _ _ _ _ _ _ Hacc Hsvc).
    unfold readRequestBody. cbn [body_of]. rewrite Hprebody.
    cbn [codec]. rewrite Hbody.
    assert (Hs5 : service c5 = Some svc).
    { apply preReadRequestBody_private in Hprebody.
      destruct Hprebody as (_ & _ & Hs & _). rewrite Hs. reflexivity. }
    rewrite Hs5. cbn [fmap option_fmap option_map body_of].
    unfold postReadRequestBody in Hpostbody.
    destruct (run_hook (doPostReadRequestBody (svc_plugins svc) _) c5)
      as [c5' [e5|]] eqn:H5.
    + injection Hpostbody as <- <-.
      eexists _, _, _. split; [reflexivity|]. split; reflexivity.
    + rewrite Hpostbody.
      eexists _, _, _. split; [reflexivity|]. split; reflexivity.
Qed.

(** The three ways the header stage ends: the header is not parsed,
    the stage fails on a parsed header with one of the failures of the
    header stage, or the header is accepted and routed to a service. *)
Lemma readRequestHeader_cases server ctx (cn : conn) :
  (exists ns e ch cnh,
     readRequestHeader server ctx cn = (false, ns, Some e, ch, cnh))
  \/ (exists f e ch cnh,
        readRequestHeader server ctx cn = (true, false, Some e, ch, cnh)
        /\ request_fails server ctx cn f /\ Error_string e = message_of f)
  \/ (exists c3 c rq svc,
        header_accepted server ctx cn c3 c rq
        /\ serviceMap server !! path c3 = Some svc).
Proof.
  unfold readRequestHeader.
  destruct (run_hook (doPreReadRequestHeader (PluginContainer_ server)) ctx)
    as [c1 [e1|]] eqn:Hpre; [left; eexists _, _, _, _; reflexivity|].
  destruct (ReadRequestHeader (codec cn) (req c1)) as [[c rq] [he|]] eqn:Hrd;
    [left; destruct he; eexists _, _, _, _; reflexivity|].
  cbn [with_req req].
  destruct (URIParse (ServiceBuilder_ server) (req_ServiceMethod rq))
    as [[p q] [ue|]] eqn:Hparse.
  { right. left. eexists (ServerInvalidServiceMethod ue), _, _, _.
    split; [reflexivity|]. split; [|reflexivity].
    eapply fails_InvalidServiceMethod; [split|]; eassumption. }
  destruct (run_hook (doPostReadRequestHeader (PluginContainer_ server))
              (with_query (with_path (with_req c1 rq) p) q))
    as [c3 [pe|]] eqn:Hpost.
  { right. left. eexists (ServerPostReadRequestHeader pe), _, _, _.
    split; [reflexivity|]. split; [|reflexivity].
    eapply fails_PostReadRequestHeader; [split| |]; eassumption. }
  assert (Hacc : header_accepted server ctx cn c3 c rq).
  { exists c1, p, q. split; [split; assumption|]. split; assumption. }
  cbn [service with_service path].
  destruct (serviceMap server !! path c3) as [svc|] eqn:Hsvc.
  - right. right. exists c3, c, rq, svc. split; assumption.
  - right. left. eexists (ServerNotFoundService (path c3)), _, _, _.
    split; [reflexivity|]. split; [|reflexivity].
    eapply fails_NotFoundService; eassumption.
Qed.

(** Conversely, every error that [readRequest] returns once the header
    was parsed is one of these failures. *)
Lemma readRequest_failure_listed server ctx (cn : conn) ns e ctx' cn1 :
  readRequest server ctx cn = Returns (true, ns, Some e, ctx', cn1) ->
  exists f, request_fails server ctx cn f /\ Error_string e = message_of f.
Proof.
  destruct (readRequestHeader_cases server ctx cn)
    as [(ns0 & e0 & ch & cnh & Hh)
       |[(f & e0 & ch & cnh & Hh & Hf & Hmsg)
        |(c3 & c & rq & svc & Hacc & Hsvc)]].
  - unfold readRequest. rewrite Hh. simpl. intros [=].
  - unfold readRequest. rewrite Hh. simpl negb. cbv iota.
    destruct (readRequestBody _ _ _ _) as [[[? ?] ?] ?].
    intros [= <- <- <- <-]. exists f. split; assumption.
  - rewrite (readRequest_routed _ _ _ _ _ _ _ Hacc Hsvc).
    unfold readRequestBody. cbn [body_of].
    destruct (preReadRequestBody server (routed c3 svc) (BodyOf (arg_pointer svc)))
      as [c5 [pe|]] eqn:Hprebody.
    { intros [= <- <- <- <-]. exists (ServerPreReadRequestBody pe).
      split; [|reflexivity]. eapply fails_PreReadRequestBody; eassumption. }
    cbn [codec].
    destruct (ReadRequestBody c (Some (arg_pointer svc)))
      as [[c' content] [be|]] eqn:Hbody.
    { intros [= <- <- <- <-]. exists (ServerReadRequestBody be).
      split; [|reflexivity]. eapply fails_ReadRequestBody; eassumption. }
    assert (Hs5 : service c5 = Some svc).
    { pose proof (preReadRequestBody_private _ _ _ _ _ Hprebody)
        as (_ & _ & Hs & _). rewrite Hs. reflexivity. }
    rewrite Hs5. cbn [fmap option_fmap option_map body_of].
    destruct (postReadRequestBody server svc c5
                (BodyOf (mkValue (v_type (arg_pointer svc)) content)))
      as [c6 oe] eqn:Hpostbody.
    pose proof Hpostbody as Hpb. unfold postReadRequestBody in Hpb.
    destruct (run_hook (doPostReadRequestBody (svc_plugins svc) _) c5)
      as [c5' [e5|]] eqn:H5.
    + injection Hpb as <- <-. intros [= <- <- <- <-].
      exists (ServerPostReadRequestBody e5).
      split; [|reflexivity]. eapply fails_PostReadRequestBody; eassumption.
    + rewrite Hpb. destruct oe as [e6|]; [|intros [=]].
      intros [= <- <- <- <-]. exists (ServerPostReadRequestBody e6).
      split; [|reflexivity]. eapply fails_PostReadRequestBody; eassumption.
Qed.

(** Accepting a header sets no kind. *)
Lemma header_accepted_kind server ctx (cn : conn) c3 c rq :
  header_accepted server ctx cn c3 c rq -> rpcErrorType c3 = rpcErrorType ctx.
Proof.
  intros (c1 & p & q & [Hpre _] & _ & Hpost).
  apply run_hook_private in Hpre. apply run_hook_private in Hpost.
  destruct Hpre as (_ & _ & _ & _ & _ & Hk1 & _).
  destruct Hpost as (_ & _ & _ & _ & _ & Hk3 & _).
  rewrite Hk3. exact Hk1.
Qed.

(** A request that is read without failure leaves the kind of its
    context as the context came out of the pool. *)
Lemma readRequest_passes server ctx (cn : conn) kr ns ctx' cn1 :
  readRequest server ctx cn = Returns (kr, ns, None, ctx', cn1) ->
  rpcErrorType ctx' = rpcErrorType ctx.
Proof.
  destruct (readRequestHeader_cases server ctx cn)
    as [(ns0 & e0 & ch & cnh & Hh)
       |[(f & e0 & ch & cnh & Hh & _)
        |(c3 & c & rq & svc & Hacc & Hsvc)]].
  - unfold readRequest. rewrite Hh. simpl. intros [=].
  - unfold readRequest. rewrite Hh. simpl negb. cbv iota.
    destruct (readRequestBody _ _ _ _) as [[[? ?] ?] ?]. intros [=].
  - rewrite (readRequest_routed _ _ _ _ _ _ _ Hacc Hsvc).
    destruct (readRequestBody_spec server (routed c3 svc) (Some (arg_pointer svc))
                (mkConn c (wire cn ++ [EvReadHeader])))
      as (berr & c2 & cn2 & content & -> & _ & _ & _ & _ & Hcase).
    destruct berr as [be|]; [intros [=]|].
    intros [= <- <- <- <-]. cbn [rpcErrorType with_replyv with_argv].
    destruct Hcase as [([? [=]] & _)|(_ & _ & Hk)].
    rewrite Hk. cbn [rpcErrorType routed with_argv with_service].
    exact (header_accepted_kind _ _ _ _ _ _ Hacc).
Qed.

(** C7, amended.  First part: when the request of a round fails with
    [f] at one of the steps of reading it (the service method does not
    parse, a [PostReadRequestHeader] hook fails, no service is found, a
    [PreReadRequestBody] hook fails, the codec fails on the body, a
    [PostReadRequestBody] hook fails), whatever context the pool has
    handed out, and the discard of the body after a failure of the
    header stage reports no failure of its own, the round of
    [ServeConn], and [ServeRequest] likewise, writes one response whose error string is the decimal code of the
    kind of [f] immediately followed by the message of [f]; unless a
    [PreWriteResponse] hook fails on that response, which then carries
    the code 9 and the message of the hook.  Second part: every error
    that [readRequest] returns after the header was parsed is one of
    these failures.  Third part: an error that the handler returns, on
    a context that came out of the pool with the kind 0, is written
    with the prefix 0 in front of its message.  Fourth part: a response
    of [sendResponse], with or without error, on which a
    [PreWriteResponse] hook fails carries the code 9 and the message of
    the hook. *)
Theorem wire_error_is_kind_of_failure :
  (forall id (st : state) f,
     request_fails (getContext (srv st) id).2 (getContext (srv st) id).1 (cn st) f ->
     discard_passes (getContext (srv st) id).2 (getContext (srv st) id).1 (cn st) ->
     message_of f <> "" ->
     exists e ctx' cn1 st' r b,
       readRequest (getContext (srv st) id).2 (getContext (srv st) id).1 (cn st)
       = Returns (true, false, Some e, ctx', cn1)
       /\ ServeConn_round id st = Returns (Continue, st')
       /\ ServeRequest id (srv st) (cn st) = Returns (Some e, srv st', cn st')
       /\ wire (cn st') = wire cn1 ++ [EvWrite r b]
       /\ resp_Seq r = req_Seq (req ctx')
       /\ match (preWriteResponse (getContext (srv st) id).2 ctx' invalidRequest).2 with
          | Some e' =>
              b = BodyNil
              /\ resp_Error r
                 = prefixed (kind_of (ServerPreWriteResponse e'))
                     (message_of (ServerPreWriteResponse e'))
          | None =>
              b = invalidRequest
              /\ resp_Error r = Itoa (kind_of f) +:+ message_of f
          end)
  /\ (forall id (st : state) ns e ctx' cn1,
       readRequest (getContext (srv st) id).2 (getContext (srv st) id).1 (cn st)
       = Returns (true, ns, Some e, ctx', cn1) ->
       exists f,
         request_fails (getContext (srv st) id).2 (getContext (srv st) id).1 (cn st) f
         /\ Error_string e = message_of f)
  /\ (forall id (st : state) kr ns ctx' cn1 svc a rv rv' ops e server2 (cn2 : conn),
       readRequest (getContext (srv st) id).2 (getContext (srv st) id).1 (cn st)
       = Returns (kr, ns, None, ctx', cn1) ->
       rpcErrorType (getContext (srv st) id).1 = 0 ->
       service ctx' = Some svc -> argv ctx' = Some a -> replyv ctx' = Some rv ->
       svc_call svc a rv (view ctx') = (rv', ops, Some e) ->
       Error_string e <> "" ->
       (preWriteResponse server2
          (fold_left apply_op ops (with_replyv ctx' (Some rv'))) invalidRequest).2
       = None ->
       exists server3 cn3 r,
         call server2 ctx' cn2 = Returns (server3, cn3)
         /\ wire cn3 = wire cn2 ++ [EvWrite r invalidRequest]
         /\ resp_Seq r = req_Seq (req ctx')
         /\ resp_Error r = Itoa 0 +:+ Error_string e)
  /\ (forall server ctx errmsg (cn : conn) e',
       errmsg <> "" \/ is_Some (replyv ctx) ->
       (preWriteResponse server ctx (response_body ctx errmsg)).2 = Some e' ->
       exists server' cn' r,
         sendResponse server ctx errmsg cn = Returns (server', cn')
         /\ wire cn' = wire cn ++ [EvWrite r BodyNil]
         /\ resp_Seq r = req_Seq (req ctx)
         /\ resp_Error r
            = prefixed (kind_of (ServerPreWriteResponse e'))
                (message_of (ServerPreWriteResponse e'))).
Proof.
  split; [|split; [|split]].
  - intros id st f Hf Hd Hmsg.
    destruct (request_fails_readRequest _ _ _ _ Hf Hd)
      as (e & ctx' & cn1 & Hr & He & Hk).
    assert (Hne : Error_string e <> "") by (rewrite He; exact Hmsg).
    destruct (sendResponse_writes (getContext (srv st) id).2 ctx'
                (Error_string e) cn1 (or_introl Hne))
      as (server' & cn'' & r & b & Hsend & Hw & Hs & _ & Hpre).
    exists e, ctx', cn1, (mkState server' cn'' (spawned st)), r, b.
    split; [exact Hr|]. split; [|split].
    { unfold ServeConn_round.
      destruct (getContext (srv st) id) as [ctx0 server0]. simpl in *.
      rewrite Hr. simpl. now rewrite Hsend. }
    { unfold ServeRequest.
      destruct (getContext (srv st) id) as [ctx0 server0]. simpl in *.
      rewrite Hr. simpl. now rewrite Hsend. }
    split; [exact Hw|]. split; [exact Hs|].
    unfold response_body, response_message in Hpre.
    rewrite (eqb_empty_false _ Hne) in Hpre.
    destruct (preWriteResponse _ ctx' invalidRequest).2 as [e'|];
      destruct Hpre as [-> ->].
    + split; reflexivity.
    + split; [reflexivity|]. unfold prefixed.
      now rewrite (strlen_pos _ Hne), Hk, He.
  - intros id st ns e ctx' cn1 Hr.
    exact (readRequest_failure_listed _ _ _ _ _ _ _ Hr).
  - intros id st kr ns ctx' cn1 svc a rv rv' ops e server2 cn2
      Hr Hk0 Hsvc Ha Hrv Hcall Hne Hpw.
    pose proof (readRequest_passes _ _ _ _ _ _ _ Hr) as Hk.
    rewrite Hk0 in Hk.
    unfold call. rewrite Hsvc, Ha, Hrv, Hcall. cbn [errmsg_of].
    destruct (sendResponse_spec server2
                (fold_left apply_op ops (with_replyv ctx' (Some rv')))
                (Error_string e) cn2 Hne)
      as (server3 & cn3 & r & b & Hsend & Hw & Hs & _ & Hpre).
    destruct (Hpre Hpw) as [-> He].
    destruct (apply_ops_private ops (with_replyv ctx' (Some rv')))
      as (Hq & _ & _ & _ & _ & Hkk & _).
    exists server3, cn3, r. split; [exact Hsend|]. split; [exact Hw|].
    split; [rewrite Hs, Hq; reflexivity|].
    rewrite He, Hkk. cbn [rpcErrorType with_replyv]. now rewrite Hk.
  - intros server ctx errmsg cn e' Hok Hfail.
    destruct (sendResponse_writes server ctx errmsg cn Hok)
      as (server' & cn' & r & b & Hsend & Hw & Hs & _ & Hpre).
    rewrite Hfail in Hpre. destruct Hpre as [-> He].
    exists server', cn', r. auto.
Qed.

End Pipeline.

(** C8 as stated fails twice on the Arith server.  With a
    [PreReadRequestBody] hook that refuses the body, a request whose
    header was parsed gets its error response (same sequence number,
    connection kept) but its body is never read from the codec.  With a
    [PostReadRequestHeader] hook whose error has an empty message, the
    header is parsed and the step fails, yet no response is sent: the
    round ends in the panic of [sendResponse]. *)
Lemma drain_and_response_counterexample :
  let refused :=
    mkState (Arith.with_plugins Arith.server Arith.refusing)
      (Arith.connect [(1, "/arith/mul", [7; 8])]) [] in
  let silenced :=
    mkState (Arith.with_plugins Arith.server Arith.silent)
      (Arith.connect [(1, "/arith/mul", [7; 8])]) [] in
  match ServeConn_round 0 refused with
  | Returns (Continue, st') =>
      body_reads (wire (cn st')) = []
      /\ written (wire (cn st'))
         = [(mkResponse "/arith/mul" 1 "6forbidden", invalidRequest)]
  | _ => False
  end
  /\ (exists ctx' cn',
        readRequest (getContext (srv silenced) 0).2 (getContext (srv silenced) 0).1
          (cn silenced)
        = Returns (true, false, Some (Err ""), ctx', cn'))
  /\ ServeConn_round 0 silenced = Panics.
Proof.
  cbv zeta. split; [|split].
  - vm_compute. split; reflexivity.
  - eexists _, _. vm_compute. reflexivity.
  - vm_compute. reflexivity.
Qed.

(** The rounds of C8 on the Arith server.  A request for an unknown
    service fails at the header stage: its body is read into nil, it is
    answered, and the next round finds the end of the stream.  A
    request whose body a [PostReadRequestBody] hook rejects fails at the
    body stage: its body was read into the pointer to the new argument
    value. *)
Lemma header_failure_recovers_eof_closes_witness :
  let st := mkState Arith.server (Arith.connect [(1, "/no/such", [1; 1])]) [] in
  let st1 :=
    match ServeConn_round 0 st with
    | Returns (_, st1) => st1
    | Panics => st
    end in
  let st2 :=
    mkState (Arith.with_plugins Arith.server Arith.rejecting)
      (Arith.connect [(3, "/arith/mul", [7; 8])]) [] in
  (exists ns e ctx' cn' st' r b c rq,
     readRequest (getContext (srv st) 0).2 (getContext (srv st) 0).1 (cn st)
       = Returns (true, ns, Some e, ctx', cn')
     /\ Error_string e <> ""
     /\ ServeConn_round 0 st = Returns (Continue, st')
     /\ ReadRequestHeader (codec (cn st)) (mkRequest "" 0) = (c, rq, None)
     /\ resp_Seq r = req_Seq rq
     /\ ((rpcErrorType ctx' = ErrorTypeServerPreReadRequestBody
          /\ wire (cn st') = wire (cn st) ++ [EvReadHeader; EvWrite r b])
         \/ (rpcErrorType ctx' <> ErrorTypeServerPreReadRequestBody
             /\ wire (cn st')
                = wire (cn st) ++ [EvReadHeader; EvReadBody None; EvWrite r b])))
  /\ (exists st',
       ServeConn 1 0 st1 = Closed st'
       /\ wire (cn st') = wire (cn st1) ++ [EvReadHeader; EvClose])
  /\ (exists ns e ctx' cn' st' r b c rq,
       readRequest (getContext (srv st2) 0).2 (getContext (srv st2) 0).1 (cn st2)
         = Returns (true, ns, Some e, ctx', cn')
       /\ Error_string e <> ""
       /\ ServeConn_round 0 st2 = Returns (Continue, st')
       /\ ReadRequestHeader (codec (cn st2)) (mkRequest "" 0) = (c, rq, None)
       /\ resp_Seq r = req_Seq rq
       /\ ((rpcErrorType ctx' = ErrorTypeServerPreReadRequestBody
            /\ wire (cn st') = wire (cn st2) ++ [EvReadHeader; EvWrite r b])
           \/ (rpcErrorType ctx' <> ErrorTypeServerPreReadRequestBody
               /\ wire (cn st')
                  = wire (cn st2)
                    ++ [EvReadHeader;
                        EvReadBody (Some (mkValue (Ptr (Named "Args")) []));
                        EvWrite r b]))).
Proof.
  cbv zeta.
  pose (st := mkState Arith.server (Arith.connect [(1, "/no/such", [1; 1])]) []).
  pose (st2 := mkState (Arith.with_plugins Arith.server Arith.rejecting)
                 (Arith.connect [(3, "/arith/mul", [7; 8])]) []).
  split; [|split].
  - assert (Hrd : exists ns e ctx' cn',
              readRequest (getContext (srv st) 0).2 (getContext (srv st) 0).1 (cn st)
              = Returns (true, ns, Some e, ctx', cn') /\ Error_string e <> "").
    { eexists _, _, _, _. split; [vm_compute; reflexivity|]. discriminate. }
    destruct Hrd as (ns & e & ctx' & cn' & Hrd & Hmsg).
    destruct (proj1 header_failure_recovers_eof_closes 0%nat st ns e ctx' cn' 0%nat Hrd Hmsg)
      as (st' & r & b & c & rq & dest & H1 & _ & H3 & H4 & _ & Hdest & H6 & _).
    assert (Hhe : header_error (getContext (srv st) 0).2 (getContext (srv st) 0).1 (cn st)
                  = Some (Err "can't find service '/no/such'"))
      by (vm_compute; reflexivity).
    rewrite Hhe in Hdest. subst dest.
    exists ns, e, ctx', cn', st', r, b, c, rq.
    do 5 (split; [assumption|]). exact H6.
  - match goal with |- context [ServeConn 1 0 ?s] => set (st1 := s) end.
    assert (Hpre : (run_hook (doPreReadRequestHeader (PluginContainer_ (srv st1)))
                      (getContext (srv st1) 0).1).2 = None)
      by (vm_compute; reflexivity).
    assert (Hh : ReadRequestHeader (codec (cn st1)) (mkRequest "" 0)
                 = (codec (cn st1), mkRequest "" 0, Some io_EOF))
      by (vm_compute; reflexivity).
    destruct (proj2 header_failure_recovers_eof_closes 0%nat st1 _ _ 0%nat Hpre Hh)
      as (st' & H1 & H2 & _).
    exists st'. auto.
  - assert (Hrd : exists ns e ctx' cn',
              readRequest (getContext (srv st2) 0).2 (getContext (srv st2) 0).1 (cn st2)
              = Returns (true, ns, Some e, ctx', cn')
              /\ service ctx' = Some (SetPluginContainer Arith.Mul no_plugins)
              /\ Error_string e <> "").
    { eexists _, _, _, _. split; [vm_compute; reflexivity|].
      split; [vm_compute; reflexivity|discriminate]. }
    destruct Hrd as (ns & e & ctx' & cn' & Hrd & Hsvc & Hmsg).
    destruct (proj1 header_failure_recovers_eof_closes 0%nat st2 ns e ctx' cn' 0%nat Hrd Hmsg)
      as (st' & r & b & c & rq & dest & H1 & _ & H3 & H4 & _ & Hdest & H6 & _).
    assert (Hhe : header_error (getContext (srv st2) 0).2 (getContext (srv st2) 0).1 (cn st2)
                  = None)
      by (vm_compute; reflexivity).
    rewrite Hhe in Hdest. destruct Hdest as (svc & Hsvc' & ->).
    rewrite Hsvc in Hsvc'. injection Hsvc' as <-.
    exists ns, e, ctx', cn', st', r, b, c, rq.
    do 5 (split; [assumption|]). exact H6.
Defined.

(** C7 on the Arith server.  A request for an unknown service goes out
    as "5can't find service '/no/such'"; the error of that request is
    the failure NotFoundService; the error "divide by zero" of the
    handler [Div], on a new context, goes out behind 0; and a response
    that a [PreWriteResponse] hook vetoes goes out as "9vetoed". *)
Lemma wire_error_is_kind_of_failure_witness :
  let st := mkState Arith.server (Arith.connect [(1, "/no/such", [1; 1])]) [] in
  let f := ServerNotFoundService "/no/such" in
  let st3 := mkState Arith.server (Arith.connect [(2, "/arith/div", [1; 0])]) [] in
  let a := mkValue (Ptr (Named "Args")) [1; 0] in
  let rv := mkValue (Ptr (Named "Reply")) [] in
  let vetoed := Arith.with_plugins Arith.server Arith.vetoing in
  (request_fails (getContext (srv st) 0).2 (getContext (srv st) 0).1 (cn st) f
   /\ discard_passes (getContext (srv st) 0).2 (getContext (srv st) 0).1 (cn st)
   /\ message_of f <> ""
   /\ exists e ctx' cn1 st' r b,
       readRequest (getContext (srv st) 0).2 (getContext (srv st) 0).1 (cn st)
       = Returns (true, false, Some e, ctx', cn1)
       /\ ServeConn_round 0 st = Returns (Continue, st')
       /\ ServeRequest 0 (srv st) (cn st) = Returns (Some e, srv st', cn st')
       /\ wire (cn st') = wire cn1 ++ [EvWrite r b]
       /\ b = invalidRequest
       /\ resp_Error r = "5can't find service '/no/such'")
  /\ (exists ns e ctx' cn1 f',
        readRequest (getContext (srv st) 0).2 (getContext (srv st) 0).1 (cn st)
        = Returns (true, ns, Some e, ctx', cn1)
        /\ request_fails (getContext (srv st) 0).2 (getContext (srv st) 0).1 (cn st) f'
        /\ Error_string e = message_of f')
  /\ (exists cn1,
        readRequest (getContext (srv st3) 0).2 (getContext (srv st3) 0).1 (cn st3)
        = Returns (true, false, None, Arith.div_by_zero, cn1)
        /\ rpcErrorType (getContext (srv st3) 0).1 = 0
        /\ service Arith.div_by_zero = Some Arith.Div
        /\ argv Arith.div_by_zero = Some a
        /\ replyv Arith.div_by_zero = Some rv
        /\ svc_call Arith.Div a rv (view Arith.div_by_zero)
           = (rv, [], Some (Err "divide by zero"))
        /\ Error_string (Err "divide by zero") <> ""
        /\ (preWriteResponse Arith.server
              (fold_left apply_op [] (with_replyv Arith.div_by_zero (Some rv)))
              invalidRequest).2 = None
        /\ exists server3 cn3 r,
            call Arith.server Arith.div_by_zero cn1 = Returns (server3, cn3)
            /\ wire cn3 = wire cn1 ++ [EvWrite r invalidRequest]
            /\ resp_Seq r = 2
            /\ resp_Error r = "0divide by zero")
  /\ (("/no/such" <> "" \/ is_Some (replyv newContext))
      /\ (preWriteResponse vetoed newContext (response_body newContext "/no/such")).2
         = Some (Err "vetoed")
      /\ exists server' cn' r,
          sendResponse vetoed newContext "/no/such" (Arith.connect [])
          = Returns (server', cn')
          /\ wire cn' = wire (Arith.connect []) ++ [EvWrite r BodyNil]
          /\ resp_Error r = "9vetoed").
Proof.
  cbv zeta.
  pose (st := mkState Arith.server (Arith.connect [(1, "/no/such", [1; 1])]) []).
  pose (st3 := mkState Arith.server (Arith.connect [(2, "/arith/div", [1; 0])]) []).
  pose (a := mkValue (Ptr (Named "Args")) [1; 0]).
  pose (rv := mkValue (Ptr (Named "Reply")) []).
  pose (vetoed := Arith.with_plugins Arith.server Arith.vetoing).
  split; [|split; [|split]].
  - assert (Hf : request_fails (getContext (srv st) 0).2 (getContext (srv st) 0).1
                   (cn st) (ServerNotFoundService "/no/such")).
    { apply (fails_NotFoundService _ _ _
               (parsed (getContext (srv st) 0).1 (mkRequest "/no/such" 1)
                  "/no/such" ∅)
               (Arith.mkFrames (Some [1; 1]) []) (mkRequest "/no/such" 1)).
      - exists (getContext (srv st) 0).1, "/no/such", ∅.
        split; [split; reflexivity|]. split; reflexivity.
      - vm_compute. reflexivity. }
    assert (Hd : discard_passes (getContext (srv st) 0).2 (getContext (srv st) 0).1
                   (cn st)) by (vm_compute; reflexivity).
    assert (Hm : message_of (ServerNotFoundService "/no/such") <> "")
      by discriminate.
    destruct (proj1 wire_error_is_kind_of_failure 0%nat st _ Hf Hd Hm)
      as (e & ctx' & cn1 & st' & r & b & Hr & Hround & Hreq & Hw & _ & Hpre).
    pose proof Hr as Hr'. vm_compute in Hr'. injection Hr' as He Hc Hn.
    subst ctx'. vm_compute in Hpre. destruct Hpre as [Hb Herr].
    split; [exact Hf|]. split; [exact Hd|]. split; [exact Hm|].
    eexists e, _, cn1, st', r, b. split; [exact Hr|]. auto 10.
  - assert (Hr : exists ns e ctx' cn1,
              readRequest (getContext (srv st) 0).2 (getContext (srv st) 0).1 (cn st)
              = Returns (true, ns, Some e, ctx', cn1))
      by (eexists _, _, _, _; vm_compute; reflexivity).
    destruct Hr as (ns & e & ctx' & cn1 & Hr).
    destruct (proj1 (proj2 wire_error_is_kind_of_failure) 0%nat st ns e ctx' cn1 Hr)
      as (f' & Hf' & Hm').
    exists ns, e, ctx', cn1, f'. auto.
  - assert (Hr : exists cn1,
              readRequest (getContext (srv st3) 0).2 (getContext (srv st3) 0).1 (cn st3)
              = Returns (true, false, None, Arith.div_by_zero, cn1))
      by (eexists; vm_compute; reflexivity).
    destruct Hr as (cn1 & Hr). exists cn1.
    assert (H0 : rpcErrorType (getContext (srv st3) 0).1 = 0) by reflexivity.
    assert (H1 : service Arith.div_by_zero = Some Arith.Div) by reflexivity.
    assert (H2 : argv Arith.div_by_zero = Some a) by reflexivity.
    assert (H3 : replyv Arith.div_by_zero = Some rv) by reflexivity.
    assert (H4 : svc_call Arith.Div a rv (view Arith.div_by_zero)
                 = (rv, [], Some (Err "divide by zero"))) by reflexivity.
    assert (H5 : Error_string (Err "divide by zero") <> "") by discriminate.
    assert (H6 : (preWriteResponse Arith.server
                    (fold_left apply_op [] (with_replyv Arith.div_by_zero (Some rv)))
                    invalidRequest).2 = None) by reflexivity.
    destruct (proj1 (proj2 (proj2 wire_error_is_kind_of_failure)) 0%nat st3
                true false Arith.div_by_zero cn1 Arith.Div a rv rv []
                (Err "divide by zero") Arith.server cn1 Hr H0 H1 H2 H3 H4 H5 H6)
      as (server3 & cn3 & r & Hcall & Hw & Hs & He).
    do 8 (split; [assumption|]).
    exists server3, cn3, r. auto.
  - assert (H1 : "/no/such" <> "" \/ is_Some (replyv newContext))
      by (left; discriminate).
    assert (H2 : (preWriteResponse vetoed newContext
                    (response_body newContext "/no/such")).2 = Some (Err "vetoed"))
      by reflexivity.
    destruct (proj2 (proj2 (proj2 wire_error_is_kind_of_failure)) vetoed newContext
                "/no/such" (Arith.connect []) (Err "vetoed") H1 H2)
      as (server' & cn' & r & Hsend & Hw & _ & He).
    split; [exact H1|]. split; [exact H2|].
    exists server', cn', r. auto.
Defined.

(** What the amended C7 leaves out.  The discard of the body of a
    request that failed at the header stage runs the
    [PreReadRequestBody] hooks; when one of them fails, its error is
    dropped but the kind it has set stays: the request for an unknown
    service goes out with the message of NotFoundService behind the
    code 6. *)
Lemma discard_failure_overrides_kind :
  match Server.ServeRequest 0 (Arith.with_plugins Arith.server Arith.refusing)
          (Arith.connect [(1, "/no/such", [1; 1])]) with
  | Returns (_, _, cn) =>
      written (wire cn)
      = [(mkResponse "/no/such" 1 "6can't find service '/no/such'", invalidRequest)]
  | Panics => False
  end.
Proof. vm_compute. reflexivity. Qed.

(** C7 as stated fails for the handler's own errors.  A first request
    whose handler [Div] returns "divide by zero" is answered with the
    prefix 0, which is the code of none of the kinds that section 7
    lists. *)
Lemma handler_error_counterexample :
  match Server.ServeRequest 0 Arith.server
          (Arith.connect [(2, "/arith/div", [1; 0])]) with
  | Returns (_, _, cn) =>
      written (wire cn)
      = [(mkResponse "/arith/div" 2 "0divide by zero", invalidRequest)]
  | Panics => False
  end
  /\ forall k, listed_kind k ->
       Itoa k +:+ "divide by zero" <> "0divide by zero".
Proof.
  split; [vm_compute; reflexivity|].
  intros k Hk. unfold listed_kind in Hk.
  assert (Hc : k = 1 \/ k = 2 \/ k = 3 \/ k = 4 \/ k = 5 \/ k = 6 \/ k = 7
               \/ k = 8 \/ k = 9 \/ k = 10 \/ k = 11 \/ k = 12 \/ k = 13
               \/ k = 14 \/ k = 15 \/ k = 16) by lia.
  repeat (destruct Hc as [->|Hc]; [vm_compute; discriminate|]).
  subst k. vm_compute. discriminate.
Qed.

(** What the missing reset of [rpcErrorType] does on the wire (C3).
    Two requests are served one after the other: the first names an
    unknown service, the second reaches the handler [Div], which returns
    the error "divide by zero".  The context of the first request is
    recycled for the second, and the handler's error goes out prefixed
    with 5, the kind of the first request's failure. *)
Lemma handler_error_carries_stale_kind :
  match Server.ServeRequest 0 Arith.server
          (Arith.connect [(1, "/no/such", [1; 1]); (2, "/arith/div", [1; 0])]) with
  | Returns (_, server, cn) =>
      match Server.ServeRequest 0 server cn with
      | Returns (_, _, cn) =>
          written (wire cn)
          = [(mkResponse "/no/such" 1 "5can't find service '/no/such'", invalidRequest);
             (mkResponse "/arith/div" 2 "5divide by zero", invalidRequest)]
      | Panics => False
      end
  | Panics => False
  end.
Proof. vm_compute. reflexivity. Qed.

End ServerProofs.
